(** * Black-Scholes-Merton pricing kernel of Notebooks/BlackScholesMerton.ipynb

    The notebook defines six Python functions: [blackScholesCall],
    [callPayoff], [putPayoff], [binomialPricer], [bsmCallDelta] and
    [bsmPutDelta].  They are embedded here as Rocq functions.

    Numbers.  The parameters of the functions are Python floats, taken to be
    finite and modelled as [R].  Every value produced by a numpy or scipy
    call is a [numpy.float64], modelled by [npfloat]: a finite real, one of
    the two infinities, or NaN.  Finite arithmetic is exact (rounding,
    overflow and underflow are not modelled) and the sign of zero is not
    tracked (a zero is read as [+0.0]); the special values follow IEEE 754
    as numpy implements it, so that a division by zero yields an infinity or
    NaN together with a warning, and never an exception.

    Errors.  A Python float divided by a Python zero raises
    [ZeroDivisionError]; this is the only exception the six functions can
    raise, and it is modelled by [outcome].

    Output.  [binomialPricer] prints one line per terminal node when its
    [verbose] flag is set; the printed lines are returned next to the price. *)

From Stdlib Require Import Reals Lra Lia List ZArith Bool.
Import ListNotations.
Open Scope R_scope.

(* ================================================================= *)
(** ** The standard normal distribution function *)

(** [norm.cdf] is scipy code.  Its value at a finite point is the standard
    normal distribution function, built here as the normalised integral of
    the Gaussian kernel [exp (- t^2 / 2)]: the integral from [0] to [x],
    divided by the total mass of the kernel (twice the supremum of the
    integrals from [0]). *)

Module Gauss.

Definition kernel (t : R) : R := exp (- (t * t) / 2).

Lemma kernel_pos (t : R) : 0 < kernel t.
Proof. apply exp_pos. Qed.

Lemma kernel_even (t : R) : kernel (- t) = kernel t.
Proof. unfold kernel. f_equal. lra. Qed.

Lemma kernel_derivable (t : R) : derivable_pt_lim kernel t (- t * kernel t).
Proof.
  unfold kernel.
  replace (- t * exp (- (t * t) / 2)) with (exp (- (t * t) / 2) * (- t)) by ring.
  apply (derivable_pt_lim_comp (fun s => - (s * s) / 2) exp).
  - replace (- t) with (- (1 * t + t * 1) / 2) by lra.
    unfold Rdiv.
    apply (derivable_pt_lim_scal_right (fun s => - (s * s))).
    apply (derivable_pt_lim_opp (fun s => s * s)).
    apply (derivable_pt_lim_mult id id); apply derivable_pt_lim_id.
  - apply derivable_pt_lim_exp.
Qed.

Lemma kernel_continuity : continuity kernel.
Proof.
  intro t. apply derivable_continuous_pt.
  exists (- t * kernel t). apply kernel_derivable.
Qed.

Lemma kernel_integrable (a b : R) : Riemann_integrable kernel a b.
Proof.
  destruct (Rle_dec a b) as [Hab | Hab].
  - apply continuity_implies_RiemannInt; [exact Hab | intros; apply kernel_continuity].
  - apply RiemannInt_P1, continuity_implies_RiemannInt;
      [lra | intros; apply kernel_continuity].
Qed.

(** The integral of the kernel from [0] to [x] (negative for [x < 0]). *)
Definition area (x : R) : R := RiemannInt (kernel_integrable 0 x).

Lemma area_0 : area 0 = 0.
Proof. apply RiemannInt_P9. Qed.

Lemma area_derivable (x : R) : derivable_pt_lim area x (kernel x).
Proof.
  assert (Hab : x - 1 <= x + 1) by lra.
  pose (C0 := fun (z : R) (_ : x - 1 <= z <= x + 1) => kernel_continuity z).
  pose (P := primitive Hab (FTC_P1 Hab C0)).
  apply (derivable_pt_lim_locally_ext
           (fun z => area (x - 1) + P z) area x (x - 1) (x + 1)).
  - lra.
  - intros z Hz. unfold P, primitive, area.
    destruct (Rle_dec (x - 1) z) as [H1 | H1]; [| lra].
    destruct (Rle_dec z (x + 1)) as [H2 | H2]; [| lra].
    apply RiemannInt_P26.
  - replace (kernel x) with (0 + kernel x) by ring.
    apply (derivable_pt_lim_plus (fun _ => area (x - 1)) P).
    + apply derivable_pt_lim_const.
    + apply RiemannInt_P28. lra.
Qed.

Lemma area_increasing (a b : R) : a < b -> area a < area b.
Proof.
  intros Hab.
  destruct (MVT_cor2 area kernel a b Hab) as [c [Hc _]].
  - intros; apply area_derivable.
  - pose proof (kernel_pos c). nra.
Qed.

Lemma area_odd (x : R) : area (- x) = - area x.
Proof.
  assert (Hd : forall c, derivable_pt_lim (fun z => area z + area (- z)) c
                           ((fun _ => 0) c)).
  { intros c.
    replace 0 with (kernel c + kernel (- c) * (- 1))
      by (rewrite kernel_even; ring).
    apply (derivable_pt_lim_plus area (fun z => area (- z))).
    - apply area_derivable.
    - apply (derivable_pt_lim_comp Ropp area).
      + apply (derivable_pt_lim_opp id), derivable_pt_lim_id.
      + apply area_derivable. }
  assert (Hpos : forall y, 0 < y -> area y + area (- y) = 0).
  { intros y Hy.
    destruct (MVT_cor2 _ _ 0 y Hy (fun c _ => Hd c)) as [c [Hc _]].
    cbv beta in Hc. rewrite Ropp_0, area_0 in Hc. lra. }
  destruct (Rtotal_order x 0) as [Hx | [Hx | Hx]].
  - specialize (Hpos (- x)). rewrite Ropp_involutive in Hpos. lra.
  - subst x. rewrite Ropp_0, area_0. lra.
  - specialize (Hpos x Hx). lra.
Qed.

Lemma kernel_tail (t : R) : kernel t <= exp (1 / 2 - t).
Proof.
  unfold kernel.
  destruct (Rtotal_order t 1) as [Ht | [Ht | Ht]].
  - left. apply exp_increasing. nra.
  - subst t. right. f_equal. lra.
  - left. apply exp_increasing. nra.
Qed.

Lemma area_bounded (x : R) : area x < exp (1 / 2).
Proof.
  assert (Hnn : forall y, 0 < y -> area y < exp (1 / 2)).
  { intros y Hy.
    destruct (MVT_cor2 (fun z => area z + exp (1 / 2 - z))
                (fun z => kernel z + exp (1 / 2 - z) * (0 - 1)) 0 y Hy)
      as [c [Hc _]].
    - intros c _.
      apply (derivable_pt_lim_plus area (fun z => exp (1 / 2 - z))).
      + apply area_derivable.
      + apply (derivable_pt_lim_comp (fun z => 1 / 2 - z) exp).
        * apply (derivable_pt_lim_minus (fun _ => 1 / 2) id).
          -- apply derivable_pt_lim_const.
          -- apply derivable_pt_lim_id.
        * apply derivable_pt_lim_exp.
    - cbv beta in Hc. rewrite area_0, Rminus_0_r in Hc.
      pose proof (kernel_tail c). pose proof (exp_pos (1 / 2 - y)). nra. }
  destruct (Rlt_le_dec 0 x) as [Hx | Hx].
  - apply Hnn, Hx.
  - apply Rle_lt_trans with (area 0).
    + destruct Hx as [Hx | Hx]; [left; apply area_increasing, Hx | subst; lra].
    + rewrite area_0. apply exp_pos.
Qed.

Definition reached (y : R) : Prop := exists x, y = area x.

Lemma reached_bound : bound reached.
Proof. exists (exp (1 / 2)). intros y [x ->]. left. apply area_bounded. Qed.

Lemma reached_inhabited : exists y, reached y.
Proof. exists (area 0), 0. reflexivity. Qed.

(** Half of the total mass of the kernel: the supremum of [area]. *)
Definition half_mass : R :=
  proj1_sig (completeness reached reached_bound reached_inhabited).

Lemma half_mass_lub : is_lub reached half_mass.
Proof.
  unfold half_mass.
  destruct (completeness reached reached_bound reached_inhabited) as [m Hm].
  exact Hm.
Qed.

Lemma area_below_half_mass (x : R) : area x < half_mass.
Proof.
  apply Rlt_le_trans with (area (x + 1)).
  - apply area_increasing. lra.
  - apply (proj1 half_mass_lub). exists (x + 1). reflexivity.
Qed.

Lemma half_mass_pos : 0 < half_mass.
Proof. rewrite <- area_0. apply area_below_half_mass. Qed.

End Gauss.

(** Modelled from the spec: the standard normal CDF [N(x)], which the
    notebook imports from scipy ([norm.cdf]). *)
Definition Phi (x : R) : R := 1 / 2 + Gauss.area x / (2 * Gauss.half_mass).

(* ================================================================= *)
(** ** numpy.float64 values *)

Inductive npfloat : Type :=
| Fin (x : R)
| PInf
| NInf
| NaN.

Declare Scope np_scope.
Delimit Scope np_scope with np.
Bind Scope np_scope with npfloat.

Definition np_neg (a : npfloat) : npfloat :=
  match a with
  | Fin x => Fin (- x)
  | PInf => NInf
  | NInf => PInf
  | NaN => NaN
  end.

Definition np_add (a b : npfloat) : npfloat :=
  match a, b with
  | NaN, _ | _, NaN => NaN
  | Fin x, Fin y => Fin (x + y)
  | PInf, NInf | NInf, PInf => NaN
  | PInf, _ | _, PInf => PInf
  | NInf, _ | _, NInf => NInf
  end.

Definition np_sub (a b : npfloat) : npfloat := np_add a (np_neg b).

(** An infinity multiplied by the finite factor [y]. *)
Definition np_scale_inf (inf : npfloat) (y : R) : npfloat :=
  if Rlt_dec 0 y then inf
  else if Rlt_dec y 0 then np_neg inf
  else NaN.

Definition np_mul (a b : npfloat) : npfloat :=
  match a, b with
  | NaN, _ | _, NaN => NaN
  | Fin x, Fin y => Fin (x * y)
  | Fin x, (PInf | NInf) => np_scale_inf b x
  | (PInf | NInf), Fin y => np_scale_inf a y
  | PInf, PInf | NInf, NInf => PInf
  | PInf, NInf | NInf, PInf => NInf
  end.

(** numpy's true division: a zero divisor gives an infinity of the sign of
    the dividend, or NaN for [0 / 0]; nothing is raised. *)
Definition np_div (a b : npfloat) : npfloat :=
  match a, b with
  | NaN, _ | _, NaN => NaN
  | Fin x, Fin y =>
      if Req_dec_T y 0 then
        if Rlt_dec 0 x then PInf
        else if Rlt_dec x 0 then NInf
        else NaN
      else Fin (x / y)
  | Fin _, (PInf | NInf) => Fin 0
  | (PInf | NInf), Fin y => if Rlt_dec y 0 then np_neg a else a
  | (PInf | NInf), (PInf | NInf) => NaN
  end.

Definition np_exp (a : npfloat) : npfloat :=
  match a with
  | Fin x => Fin (exp x)
  | PInf => PInf
  | NInf => Fin 0
  | NaN => NaN
  end.

Definition np_log (a : npfloat) : npfloat :=
  match a with
  | Fin x =>
      if Rlt_dec 0 x then Fin (ln x)
      else if Rlt_dec x 0 then NaN
      else NInf
  | PInf => PInf
  | NInf | NaN => NaN
  end.

Definition np_sqrt (a : npfloat) : npfloat :=
  match a with
  | Fin x => if Rlt_dec x 0 then NaN else Fin (sqrt x)
  | PInf => PInf
  | NInf | NaN => NaN
  end.

Definition np_maximum (a b : npfloat) : npfloat :=
  match a, b with
  | NaN, _ | _, NaN => NaN
  | Fin x, Fin y => Fin (Rmax x y)
  | PInf, _ | _, PInf => PInf
  | NInf, c | c, NInf => c
  end.

Definition np_pow_nat (a : npfloat) (k : nat) : npfloat :=
  match k with
  | O => Fin 1
  | Datatypes.S _ =>
      match a with
      | Fin x => Fin (x ^ k)
      | PInf => PInf
      | NInf => if Nat.even k then PInf else NInf
      | NaN => NaN
      end
  end.

(** [a ** k] for a [numpy.float64] base and a Python int exponent. *)
Definition np_pow (a : npfloat) (k : Z) : npfloat :=
  match k with
  | Z0 => Fin 1
  | Zpos p => np_pow_nat a (Pos.to_nat p)
  | Zneg p => np_div (Fin 1) (np_pow_nat a (Pos.to_nat p))
  end.

Notation "a + b" := (np_add a b) : np_scope.
Notation "a - b" := (np_sub a b) : np_scope.
Notation "a * b" := (np_mul a b) : np_scope.
Notation "a / b" := (np_div a b) : np_scope.
Notation "- a" := (np_neg a) : np_scope.

(** Modelled from the spec: [norm.cdf] of scipy, the standard normal CDF
    extended to the special values ([1] at [+inf], [0] at [-inf]). *)
Definition norm_cdf (a : npfloat) : npfloat :=
  match a with
  | Fin x => Fin (Phi x)
  | PInf => Fin 1
  | NInf => Fin 0
  | NaN => NaN
  end.

(** Modelled from the spec: [binom.pmf] of scipy, the binomial probability
    mass function [C(n,k) p^k (1-p)^(n-k)].  scipy answers NaN when [n < 0]
    or [p] is not in [[0,1]], and [0] when [k] is outside [0..n]. *)
Definition binom_pmf (k n : Z) (p : npfloat) : npfloat :=
  match p with
  | Fin x =>
      if (0 <=? n)%Z then
        if Rle_dec 0 x then
          if Rle_dec x 1 then
            if ((0 <=? k) && (k <=? n))%Z
            then Fin (C (Z.to_nat n) (Z.to_nat k) * x ^ Z.to_nat k
                      * (1 - x) ^ (Z.to_nat n - Z.to_nat k))
            else Fin 0
          else NaN
        else NaN
      else NaN
  | _ => NaN
  end.

(* ================================================================= *)
(** ** Results of a call *)

(** [ZeroDivisionError] is Python's.  [InvalidParameter] is the error class
    the specification names; no statement of the notebook raises it. *)
Inductive exn : Type :=
| ZeroDivisionError
| InvalidParameter.

Inductive outcome (A : Type) : Type :=
| Returned (a : A)
| Raised (e : exn).
Arguments Returned {A} a.
Arguments Raised {A} e.

Definition bind {A B : Type} (c : outcome A) (k : A -> outcome B) : outcome B :=
  match c with
  | Returned a => k a
  | Raised e => Raised e
  end.

Notation "x <- c ;; k" := (bind c (fun x => k))
  (at level 61, c at next level, right associativity).

(** [x / y] on Python numbers. *)
Definition py_truediv (x y : R) : outcome R :=
  if Req_dec_T y 0 then Raised ZeroDivisionError else Returned (x / y).

(* ================================================================= *)
(** ** The functions of the notebook *)

Definition blackScholesCall (spot strike vol rate expiry div : R) : outcome npfloat :=
  q <- py_truediv spot strike ;;
  let d1 := ((np_log (Fin q) + Fin ((rate - div + 0.5 * vol * vol) * expiry))
             / (Fin vol * np_sqrt (Fin expiry)))%np in
  let d2 := (d1 - Fin vol * np_sqrt (Fin expiry))%np in
  let callPrc := (Fin spot * np_exp (Fin (- div * expiry)) * norm_cdf d1
                  - Fin strike * np_exp (Fin (- rate * expiry)) * norm_cdf d2)%np in
  Returned callPrc.

Definition callPayoff (spot : npfloat) (strike : R) : npfloat :=
  np_maximum (spot - Fin strike)%np (Fin 0).

Definition putPayoff (spot : npfloat) (strike : R) : npfloat :=
  np_maximum (Fin strike - spot)%np (Fin 0).

(** The move sizes and the risk-neutral probability, the locals [u], [d]
    and [pstar] of [binomialPricer], as functions of the step length [h]. *)
Module Lattice.

Definition u (r v q h : R) : npfloat :=
  np_exp (Fin ((r - q) * h) + Fin v * np_sqrt (Fin h))%np.

Definition d (r v q h : R) : npfloat :=
  np_exp (Fin ((r - q) * h) - Fin v * np_sqrt (Fin h))%np.

Definition pstar (r v q h : R) : npfloat :=
  ((np_exp (Fin ((r - q) * h)) - d r v q h) / (u r v q h - d r v q h))%np.

End Lattice.

(** A line printed for one terminal node: [(spotT, po, prob)]. *)
Record printed : Type :=
  Line { line_spotT : npfloat; line_po : npfloat; line_prob : npfloat }.

(** The local [spotT] of the loop body. *)
Definition node_spotT (S : R) (n : Z) (u d : npfloat) (i : nat) : npfloat :=
  (Fin S * np_pow u (Z.of_nat i) * np_pow d (n - Z.of_nat i))%np.

(** One pass through the body of the loop [for i in range(nodes)]; the
    state is the running [price] and what has been printed so far. *)
Definition node_step (S K : R) (n : Z) (u d pstar : npfloat)
    (payoff : npfloat -> R -> npfloat) (verbose : bool)
    (st : npfloat * list printed) (i : nat) : npfloat * list printed :=
  let '(price, out) := st in
  let prob := binom_pmf (Z.of_nat i) n pstar in
  let spotT := node_spotT S n u d i in
  let po := payoff spotT K in
  let price := (price + po * prob)%np in
  (price, if verbose then out ++ [Line spotT po prob] else out).

Definition binomialPricer (S K r v q T : R) (n : Z)
    (payoff : npfloat -> R -> npfloat) (verbose : bool)
  : outcome (npfloat * list printed) :=
  let nodes := (n + 1)%Z in
  h <- py_truediv T (IZR n) ;;
  let u := Lattice.u r v q h in
  let d := Lattice.d r v q h in
  let pstar := Lattice.pstar r v q h in
  let '(price, out) :=
    fold_left (node_step S K n u d pstar payoff verbose)
              (seq 0 (Z.to_nat nodes)) (Fin 0, []) in
  Returned ((price * np_exp (Fin (- r * T)))%np, out).

Definition bsmCallDelta (spot strike vol rate tau div : R) : outcome npfloat :=
  q <- py_truediv spot strike ;;
  let d1 := ((np_log (Fin q) + Fin ((rate - div + 0.5 * vol * vol) * tau))
             / (Fin vol * np_sqrt (Fin tau)))%np in
  let delta := (np_exp (Fin (- div * tau)) * norm_cdf d1)%np in
  Returned delta.

Definition bsmPutDelta (spot strike vol rate tau div : R) : outcome npfloat :=
  q <- py_truediv spot strike ;;
  let d1 := ((np_log (Fin q) + Fin ((rate - div + 0.5 * vol * vol) * tau))
             / (Fin vol * np_sqrt (Fin tau)))%np in
  let delta := (np_exp (Fin (- div * tau)) * norm_cdf (- d1))%np in
  Returned delta.

(** The price a call returns, and what it printed. *)
Definition price_of (o : outcome (npfloat * list printed)) : outcome npfloat :=
  res <- o ;; Returned (fst res).

Definition stdout_of (o : outcome (npfloat * list printed)) : list printed :=
  match o with
  | Returned res => snd res
  | Raised _ => []
  end.

(* ================================================================= *)
(** ** The formulas of the specification *)

Record valid_params (S K sigma tau delta : R) : Prop := {
  valid_spot : 0 < S;
  valid_strike : 0 < K;
  valid_vol : 0 < sigma;
  valid_expiry : 0 < tau;
  valid_div : 0 <= delta
}.

Definition spec_d1 (S K sigma r tau delta : R) : R :=
  (ln (S / K) + (r - delta + 0.5 * (sigma * sigma)) * tau) / (sigma * sqrt tau).

Definition spec_d2 (S K sigma r tau delta : R) : R :=
  spec_d1 S K sigma r tau delta - sigma * sqrt tau.

Definition spec_call_price (S K sigma r tau delta : R) : R :=
  S * exp (- delta * tau) * Phi (spec_d1 S K sigma r tau delta)
  - K * exp (- r * tau) * Phi (spec_d2 S K sigma r tau delta).

(** The put price, as the first cell of the notebook and the specification
    state it; no function of the notebook computes it. *)
Definition spec_put_price (S K sigma r tau delta : R) : R :=
  K * exp (- r * tau) * Phi (- spec_d2 S K sigma r tau delta)
  - S * exp (- delta * tau) * Phi (- spec_d1 S K sigma r tau delta).

(** The standard normal density [N'(x)]. *)
Definition norm_pdf (x : R) : R := Gauss.kernel x / (2 * Gauss.half_mass).

Definition spec_u (r sigma delta h : R) : R := exp ((r - delta) * h + sigma * sqrt h).

Definition spec_d (r sigma delta h : R) : R := exp ((r - delta) * h - sigma * sqrt h).

Definition spec_pstar (r sigma delta h : R) : R :=
  (exp ((r - delta) * h) - spec_d r sigma delta h)
  / (spec_u r sigma delta h - spec_d r sigma delta h).

Definition spec_terminal_spot (S u d : R) (N i : nat) : R := S * u ^ i * d ^ (N - i).

Definition spec_node_probability (p : R) (N i : nat) : R :=
  C N i * p ^ i * (1 - p) ^ (N - i).

(** The sum of a list of [numpy.float64] values, accumulated from [0.0]. *)
Definition np_sum (l : list npfloat) : npfloat := fold_left np_add l (Fin 0).

(** [e^(-r T)] times the sum, over the [N + 1] terminal nodes, of payoff
    times node probability. *)
Definition spec_lattice_price (S K r sigma delta T : R) (N : nat)
    (payoff : npfloat -> R -> npfloat) : npfloat :=
  let h := T / INR N in
  let u := spec_u r sigma delta h in
  let d := spec_d r sigma delta h in
  let p := spec_pstar r sigma delta h in
  (np_sum (map (fun i => payoff (Fin (spec_terminal_spot S u d N i)) K
                         * Fin (spec_node_probability p N i))%np
               (seq 0 (N + 1)))
   * Fin (exp (- r * T)))%np.

Definition spec_lattice_output (S K r sigma delta T : R) (N : nat)
    (payoff : npfloat -> R -> npfloat) : list printed :=
  let h := T / INR N in
  let u := spec_u r sigma delta h in
  let d := spec_d r sigma delta h in
  let p := spec_pstar r sigma delta h in
  map (fun i => Line (Fin (spec_terminal_spot S u d N i))
                     (payoff (Fin (spec_terminal_spot S u d N i)) K)
                     (Fin (spec_node_probability p N i)))
      (seq 0 (N + 1)).

(** The same sum for a payoff with real values. *)
Definition spec_expected_payoff (S u d p : R) (N : nat) (f : R -> R) : R :=
  sum_f_R0 (fun i => f (spec_terminal_spot S u d N i) * spec_node_probability p N i) N.

(** A value that is a non-negative number ([+inf] included). *)
Definition np_nonneg (a : npfloat) : Prop :=
  match a with
  | Fin x => 0 <= x
  | PInf => True
  | NInf | NaN => False
  end.

(** What [blackScholesCall] returns when the denominator of [d1] is zero. *)
Definition degenerate_call (S K r tau delta : R) : npfloat :=
  let m := ln (S / K) + (r - delta) * tau in
  if Rlt_dec 0 m then Fin (S * exp (- delta * tau) - K * exp (- r * tau))
  else if Rlt_dec m 0 then Fin 0
  else NaN.

(* ================================================================= *)
(** ** The cell that calls the lattice pricer *)

(** The cell of the notebook that runs [binomialPricer] over the list [N] of
    step counts and prints each price, as a function of the globals it
    reads.  The result is what was printed and how the cell ended: an
    exception of [binomialPricer] ends the loop and leaves the earlier
    prices printed. *)
Fixpoint convergence_loop (spot strike rate vol div expiry : R) (N : list Z)
    (out : list npfloat) : list npfloat * outcome unit :=
  match N with
  | [] => (out, Returned tt)
  | nsteps :: rest =>
      match binomialPricer spot strike rate vol div expiry nsteps callPayoff false with
      | Returned (callPrc, _) =>
          convergence_loop spot strike rate vol div expiry rest (out ++ [callPrc])
      | Raised e => (out, Raised e)
      end
  end.

Definition convergence_cell (spot strike rate vol div expiry : R) (N : list Z)
  : list npfloat * outcome unit :=
  convergence_loop spot strike rate vol div expiry N [].


(** The number a call returned ([0] when it returned none). *)
Definition value_of (o : outcome npfloat) : R :=
  match o with
  | Returned (Fin x) => x
  | _ => 0
  end.

(** The price for a payoff with real values. *)
Definition spec_lattice_value (S r v q T : R) (N : nat) (f : R -> R) : R :=
  spec_expected_payoff S (spec_u r v q (T / INR N)) (spec_d r v q (T / INR N))
                       (spec_pstar r v q (T / INR N)) N f
  * exp (- r * T).

(* ================================================================= *)
(** ** Properties of the normal distribution function *)

Lemma Phi_symmetry (x : R) : Phi (- x) = 1 - Phi x.
Proof.
  unfold Phi. rewrite Gauss.area_odd.
  pose proof Gauss.half_mass_pos. field. lra.
Qed.

Lemma Phi_lt_1 (x : R) : Phi x < 1.
Proof.
  unfold Phi. pose proof Gauss.half_mass_pos as Hm.
  pose proof (Gauss.area_below_half_mass x) as Hx.
  assert (Gauss.area x / (2 * Gauss.half_mass) < 1 / 2); [| lra].
  apply Rmult_lt_reg_r with (2 * Gauss.half_mass); [lra |].
  unfold Rdiv. rewrite Rmult_assoc, Rinv_l by lra. lra.
Qed.

Lemma Phi_pos (x : R) : 0 < Phi x.
Proof.
  pose proof (Phi_lt_1 (- x)) as H. rewrite Phi_symmetry in H. lra.
Qed.

Lemma Phi_increasing (a b : R) : a < b -> Phi a < Phi b.
Proof.
  intros Hab. unfold Phi. pose proof Gauss.half_mass_pos as Hm.
  apply Gauss.area_increasing in Hab.
  apply Rplus_lt_compat_l, Rmult_lt_compat_r; [| exact Hab].
  apply Rinv_0_lt_compat. lra.
Qed.

Lemma Phi_0 : Phi 0 = 1 / 2.
Proof. unfold Phi. rewrite Gauss.area_0. unfold Rdiv. ring. Qed.

Lemma Phi_derivable (x : R) : derivable_pt_lim Phi x (norm_pdf x).
Proof.
  unfold Phi, norm_pdf.
  replace (Gauss.kernel x / (2 * Gauss.half_mass))
    with (0 + Gauss.kernel x * / (2 * Gauss.half_mass)) by (unfold Rdiv; ring).
  apply (derivable_pt_lim_plus (fun _ => 1 / 2)
           (fun y => Gauss.area y / (2 * Gauss.half_mass))).
  - apply derivable_pt_lim_const.
  - unfold Rdiv. apply (derivable_pt_lim_scal_right Gauss.area).
    apply Gauss.area_derivable.
Qed.

(* ================================================================= *)
(** ** Arithmetic on finite values *)

Lemma py_truediv_nonzero (x y : R) : y <> 0 -> py_truediv x y = Returned (x / y).
Proof.
  intros Hy. unfold py_truediv.
  destruct (Req_dec_T y 0); [contradiction | reflexivity].
Qed.

Lemma py_truediv_zero (x : R) : py_truediv x 0 = Raised ZeroDivisionError.
Proof.
  unfold py_truediv. destruct (Req_dec_T 0 0); [reflexivity | contradiction].
Qed.

Lemma np_log_pos (x : R) : 0 < x -> np_log (Fin x) = Fin (ln x).
Proof. intros Hx. simpl. destruct (Rlt_dec 0 x); [reflexivity | contradiction]. Qed.

Lemma np_sqrt_nonneg (x : R) : 0 <= x -> np_sqrt (Fin x) = Fin (sqrt x).
Proof. intros Hx. simpl. destruct (Rlt_dec x 0); [lra | reflexivity]. Qed.

Lemma np_div_nonzero (x y : R) : y <> 0 -> (Fin x / Fin y)%np = Fin (x / y).
Proof. intros Hy. simpl. destruct (Req_dec_T y 0); [contradiction | reflexivity]. Qed.

Lemma np_div_zero_zero : (Fin 0 / Fin 0)%np = NaN.
Proof.
  simpl. destruct (Req_dec_T 0 0) as [_ | Hne]; [| contradiction].
  destruct (Rlt_dec 0 0); [lra | reflexivity].
Qed.

Lemma np_pow_of_nat (x : R) (k : nat) : np_pow (Fin x) (Z.of_nat k) = Fin (x ^ k).
Proof.
  destruct k as [| k]; [reflexivity |].
  cbn [Z.of_nat np_pow]. rewrite SuccNat2Pos.id_succ. reflexivity.
Qed.

Lemma np_mul_NaN_r (a : npfloat) : (a * NaN)%np = NaN.
Proof. destruct a; reflexivity. Qed.

Lemma np_add_NaN_r (a : npfloat) : (a + NaN)%np = NaN.
Proof. destruct a; reflexivity. Qed.

Lemma fold_add_NaN (l : list npfloat) : fold_left np_add l NaN = NaN.
Proof. induction l as [| a l IH]; cbn; auto. Qed.

Lemma np_sum_finite (g : nat -> R) (N : nat) :
  np_sum (map (fun i => Fin (g i)) (seq 0 (N + 1))) = Fin (sum_f_R0 g N).
Proof.
  unfold np_sum. induction N as [| N IH].
  - cbn. f_equal. ring.
  - replace (S N + 1)%nat with (S (N + 1)) by lia.
    rewrite seq_S, map_app, fold_left_app, IH. cbn.
    replace (N + 1)%nat with (S N) by lia. reflexivity.
Qed.

Create HintDb npfloat.

Lemma np_add_nonneg (a b : npfloat) : np_nonneg a -> np_nonneg b -> np_nonneg (a + b)%np.
Proof. destruct a, b; cbn; intros; try tauto. lra. Qed.

Lemma np_mul_nonneg_pos (a : npfloat) (y : R) :
  np_nonneg a -> 0 < y -> np_nonneg (a * Fin y)%np.
Proof.
  destruct a; cbn; intros Ha Hy; try tauto.
  - apply Rmult_le_pos; lra.
  - unfold np_scale_inf. destruct (Rlt_dec 0 y); [exact I | contradiction].
Qed.

Lemma np_nonneg_zero : np_nonneg (Fin 0).
Proof. cbn. lra. Qed.

#[export] Hint Resolve np_add_nonneg np_mul_nonneg_pos np_nonneg_zero exp_pos : npfloat.

Lemma np_sum_nonneg (l : list npfloat) :
  Forall np_nonneg l -> forall acc, np_nonneg acc -> np_nonneg (fold_left np_add l acc).
Proof.
  induction 1 as [| a l Ha _ IH]; intros acc Hacc; cbn; auto with npfloat.
Qed.

Lemma callPayoff_finite (s K : R) : callPayoff (Fin s) K = Fin (Rmax (s - K) 0).
Proof. reflexivity. Qed.

Lemma putPayoff_finite (s K : R) : putPayoff (Fin s) K = Fin (Rmax (K - s) 0).
Proof. reflexivity. Qed.

Lemma callPayoff_nonneg (s K : R) : np_nonneg (callPayoff (Fin s) K).
Proof. rewrite callPayoff_finite. apply Rmax_r. Qed.

Lemma putPayoff_nonneg (s K : R) : np_nonneg (putPayoff (Fin s) K).
Proof. rewrite putPayoff_finite. apply Rmax_r. Qed.

(* ================================================================= *)
(** ** The analytic functions on valid parameters *)

Lemma vol_sqrt_pos (sigma tau : R) : 0 < sigma -> 0 < tau -> 0 < sigma * sqrt tau.
Proof. intros Hs Ht. apply Rmult_lt_0_compat; [exact Hs | apply sqrt_lt_R0, Ht]. Qed.

Section Analytic.

Variables S K sigma r tau delta : R.
Hypothesis HS : 0 < S.
Hypothesis HK : 0 < K.
Hypothesis Hsigma : 0 < sigma.
Hypothesis Htau : 0 < tau.

(** The local [d1], shared by the three analytic functions. *)
Lemma d1_finite :
  ((np_log (Fin (S / K)) + Fin ((r - delta + 0.5 * sigma * sigma) * tau))
   / (Fin sigma * np_sqrt (Fin tau)))%np = Fin (spec_d1 S K sigma r tau delta).
Proof.
  rewrite np_log_pos by (apply Rdiv_lt_0_compat; assumption).
  rewrite np_sqrt_nonneg by lra. cbn [np_add np_mul].
  pose proof (vol_sqrt_pos sigma tau Hsigma Htau).
  rewrite np_div_nonzero by lra.
  unfold spec_d1. do 3 f_equal. ring.
Qed.

Lemma blackScholesCall_value :
  blackScholesCall S K sigma r tau delta
  = Returned (Fin (spec_call_price S K sigma r tau delta)).
Proof.
  unfold blackScholesCall.
  rewrite py_truediv_nonzero by lra. cbn [bind].
  rewrite d1_finite, np_sqrt_nonneg by lra.
  reflexivity.
Qed.

Lemma bsmCallDelta_value :
  bsmCallDelta S K sigma r tau delta
  = Returned (Fin (exp (- delta * tau) * Phi (spec_d1 S K sigma r tau delta))).
Proof.
  unfold bsmCallDelta.
  rewrite py_truediv_nonzero by lra. cbn [bind].
  rewrite d1_finite. reflexivity.
Qed.

Lemma bsmPutDelta_value :
  bsmPutDelta S K sigma r tau delta
  = Returned (Fin (exp (- delta * tau) * Phi (- spec_d1 S K sigma r tau delta))).
Proof.
  unfold bsmPutDelta.
  rewrite py_truediv_nonzero by lra. cbn [bind].
  rewrite d1_finite. reflexivity.
Qed.

End Analytic.

(* ================================================================= *)
(** ** The deltas as derivatives of the closed-form prices *)

Section Sensitivity.

Variables S K sigma r tau delta : R.
Hypothesis HS : 0 < S.
Hypothesis HK : 0 < K.
Hypothesis Hsigma : 0 < sigma.
Hypothesis Htau : 0 < tau.

Lemma d1_derivable :
  derivable_pt_lim (fun s => spec_d1 s K sigma r tau delta) S
                   (/ (S * (sigma * sqrt tau))).
Proof.
  pose proof (vol_sqrt_pos sigma tau Hsigma Htau) as Hb.
  unfold spec_d1.
  replace (/ (S * (sigma * sqrt tau)))
    with ((/ (S / K) * (1 * / K) + 0) * / (sigma * sqrt tau))
    by (pose proof (sqrt_lt_R0 tau Htau); field; repeat split; lra).
  unfold Rdiv at 1.
  apply (derivable_pt_lim_scal_right
           (fun s => ln (s / K) + (r - delta + 0.5 * (sigma * sigma)) * tau)).
  apply (derivable_pt_lim_plus (fun s => ln (s / K))
           (fun _ => (r - delta + 0.5 * (sigma * sigma)) * tau)).
  - apply (derivable_pt_lim_comp (fun s => s / K) ln).
    + unfold Rdiv. apply (derivable_pt_lim_scal_right id), derivable_pt_lim_id.
    + apply derivable_pt_lim_ln. apply Rdiv_lt_0_compat; assumption.
  - apply derivable_pt_lim_const.
Qed.

Lemma kernel_balance :
  S * exp (- delta * tau) * Gauss.kernel (spec_d1 S K sigma r tau delta)
  = K * exp (- r * tau) * Gauss.kernel (spec_d2 S K sigma r tau delta).
Proof.
  pose proof (vol_sqrt_pos sigma tau Hsigma Htau) as Hb.
  assert (Hsq : sqrt tau * sqrt tau = tau) by (apply sqrt_sqrt; lra).
  unfold spec_d2, Gauss.kernel.
  set (d1 := spec_d1 S K sigma r tau delta).
  assert (Hd1 : sigma * sqrt tau * d1
                = ln (S / K) + (r - delta + 0.5 * (sigma * sigma)) * tau).
  { unfold d1, spec_d1. pose proof (sqrt_lt_R0 tau Htau).
    field. split; lra. }
  replace (- (d1 * d1) / 2)
    with (- ((d1 - sigma * sqrt tau) * (d1 - sigma * sqrt tau)) / 2
          + (- ln (S / K) + (delta - r) * tau)).
  - rewrite !exp_plus, exp_Ropp, exp_ln by (apply Rdiv_lt_0_compat; assumption).
    replace (- r * tau) with (- delta * tau + (delta - r) * tau) by ring.
    rewrite exp_plus. field. split; lra.
  - replace ((d1 - sigma * sqrt tau) * (d1 - sigma * sqrt tau))
      with (d1 * d1 - 2 * (sigma * sqrt tau * d1)
            + sigma * sigma * (sqrt tau * sqrt tau)) by ring.
    rewrite Hd1, Hsq. lra.
Qed.

(** The spot derivative of the call price is [e^(-delta tau) N(d1)]. *)
Lemma call_price_derivable :
  derivable_pt_lim (fun s => spec_call_price s K sigma r tau delta) S
                   (exp (- delta * tau) * Phi (spec_d1 S K sigma r tau delta)).
Proof.
  pose proof (vol_sqrt_pos sigma tau Hsigma Htau) as Hb.
  set (d1' := / (S * (sigma * sqrt tau))).
  replace (exp (- delta * tau) * Phi (spec_d1 S K sigma r tau delta))
    with ((1 * exp (- delta * tau) * Phi (spec_d1 S K sigma r tau delta)
           + S * exp (- delta * tau)
             * (norm_pdf (spec_d1 S K sigma r tau delta) * d1'))
          - K * exp (- r * tau)
            * (norm_pdf (spec_d2 S K sigma r tau delta) * (d1' - 0))).
  - unfold spec_call_price.
    apply (derivable_pt_lim_minus
             (fun s => s * exp (- delta * tau) * Phi (spec_d1 s K sigma r tau delta))
             (fun s => K * exp (- r * tau) * Phi (spec_d2 s K sigma r tau delta))).
    + apply (derivable_pt_lim_mult (fun s => s * exp (- delta * tau))
               (fun s => Phi (spec_d1 s K sigma r tau delta))).
      * apply (derivable_pt_lim_scal_right id), derivable_pt_lim_id.
      * apply (derivable_pt_lim_comp (fun s => spec_d1 s K sigma r tau delta) Phi).
        -- apply d1_derivable.
        -- apply Phi_derivable.
    + apply (derivable_pt_lim_scal (fun s => Phi (spec_d2 s K sigma r tau delta))).
      apply (derivable_pt_lim_comp (fun s => spec_d2 s K sigma r tau delta) Phi).
      * unfold spec_d2.
        apply (derivable_pt_lim_minus (fun s => spec_d1 s K sigma r tau delta)
                 (fun _ => sigma * sqrt tau)).
        -- apply d1_derivable.
        -- apply derivable_pt_lim_const.
      * apply Phi_derivable.
  - unfold norm_pdf. pose proof kernel_balance as Hbal.
    pose proof Gauss.half_mass_pos as Hm.
    unfold Rdiv.
    transitivity (exp (- delta * tau) * Phi (spec_d1 S K sigma r tau delta)
                  + (S * exp (- delta * tau) * Gauss.kernel (spec_d1 S K sigma r tau delta)
                     - K * exp (- r * tau) * Gauss.kernel (spec_d2 S K sigma r tau delta))
                    * (/ (2 * Gauss.half_mass) * d1')); [ring |].
    rewrite Hbal. ring.
Qed.

Lemma put_price_parity (s : R) :
  spec_put_price s K sigma r tau delta
  = spec_call_price s K sigma r tau delta - s * exp (- delta * tau) + K * exp (- r * tau).
Proof. unfold spec_put_price, spec_call_price. rewrite !Phi_symmetry. ring. Qed.

(** The spot derivative of the put price is [- e^(-delta tau) N(-d1)]. *)
Lemma put_price_derivable :
  derivable_pt_lim (fun s => spec_put_price s K sigma r tau delta) S
                   (- (exp (- delta * tau) * Phi (- spec_d1 S K sigma r tau delta))).
Proof.
  apply (derivable_pt_lim_locally_ext
           (fun s => spec_call_price s K sigma r tau delta
                     - s * exp (- delta * tau) + K * exp (- r * tau))
           _ S (S - 1) (S + 1)); [lra | intros; symmetry; apply put_price_parity |].
  replace (- (exp (- delta * tau) * Phi (- spec_d1 S K sigma r tau delta)))
    with (exp (- delta * tau) * Phi (spec_d1 S K sigma r tau delta)
          - 1 * exp (- delta * tau) + 0)
    by (rewrite Phi_symmetry; ring).
  apply (derivable_pt_lim_plus
           (fun s => spec_call_price s K sigma r tau delta - s * exp (- delta * tau))
           (fun _ => K * exp (- r * tau))); [| apply derivable_pt_lim_const].
  apply (derivable_pt_lim_minus (fun s => spec_call_price s K sigma r tau delta)
           (fun s => s * exp (- delta * tau))).
  - apply call_price_derivable.
  - apply (derivable_pt_lim_scal_right id), derivable_pt_lim_id.
Qed.

(** [bsmCallDelta] returns the spot derivative of the call price;
    [bsmPutDelta] returns the opposite of the spot derivative of the put
    price. *)
Lemma bsm_deltas_and_derivatives :
  exists c p : R,
    bsmCallDelta S K sigma r tau delta = Returned (Fin c)
    /\ bsmPutDelta S K sigma r tau delta = Returned (Fin p)
    /\ derivable_pt_lim (fun s => spec_call_price s K sigma r tau delta) S c
    /\ derivable_pt_lim (fun s => spec_put_price s K sigma r tau delta) S (- p)
    /\ 0 < c < exp (- delta * tau)
    /\ 0 < p < exp (- delta * tau)
    /\ c + p = exp (- delta * tau).
Proof.
  exists (exp (- delta * tau) * Phi (spec_d1 S K sigma r tau delta)),
         (exp (- delta * tau) * Phi (- spec_d1 S K sigma r tau delta)).
  split; [apply bsmCallDelta_value; assumption |].
  split; [apply bsmPutDelta_value; assumption |].
  split; [apply call_price_derivable |].
  split; [apply put_price_derivable |].
  pose proof (exp_pos (- delta * tau)) as He.
  pose proof (Phi_pos (spec_d1 S K sigma r tau delta)) as Hc0.
  pose proof (Phi_lt_1 (spec_d1 S K sigma r tau delta)) as Hc1.
  rewrite Phi_symmetry. repeat split; nra.
Qed.

End Sensitivity.

(* ================================================================= *)
(** ** One step of the lattice *)

Section LatticeStep.

Variables r sigma delta h : R.
Hypothesis Hsigma : 0 < sigma.
Hypothesis Hh : 0 < h.

Lemma no_arbitrage_moves :
  spec_d r sigma delta h < exp ((r - delta) * h) < spec_u r sigma delta h.
Proof.
  pose proof (vol_sqrt_pos sigma h Hsigma Hh).
  unfold spec_d, spec_u. split; apply exp_increasing; lra.
Qed.

Lemma spec_pstar_range : 0 < spec_pstar r sigma delta h < 1.
Proof.
  destruct no_arbitrage_moves as [Hd Hu].
  unfold spec_pstar. split.
  - apply Rdiv_lt_0_compat; lra.
  - apply Rmult_lt_reg_r with (spec_u r sigma delta h - spec_d r sigma delta h); [lra |].
    unfold Rdiv. rewrite Rmult_assoc, Rinv_l by lra. lra.
Qed.

(** Under [pstar] the expected one-step growth is the forward factor. *)
Lemma pstar_martingale :
  spec_pstar r sigma delta h * spec_u r sigma delta h
  + (1 - spec_pstar r sigma delta h) * spec_d r sigma delta h
  = exp ((r - delta) * h).
Proof.
  destruct no_arbitrage_moves as [Hd Hu].
  unfold spec_pstar. field. lra.
Qed.

End LatticeStep.

Lemma lattice_u_finite (r v q h : R) :
  0 <= h -> Lattice.u r v q h = Fin (spec_u r v q h).
Proof. intros Hh. unfold Lattice.u. rewrite np_sqrt_nonneg by exact Hh. reflexivity. Qed.

Lemma lattice_d_finite (r v q h : R) :
  0 <= h -> Lattice.d r v q h = Fin (spec_d r v q h).
Proof.
  intros Hh. unfold Lattice.d. rewrite np_sqrt_nonneg by exact Hh.
  cbn. unfold spec_d. do 2 f_equal.
Qed.

Lemma lattice_pstar_finite (r v q h : R) :
  0 < v -> 0 < h -> Lattice.pstar r v q h = Fin (spec_pstar r v q h).
Proof.
  intros Hv Hh. unfold Lattice.pstar.
  rewrite lattice_u_finite, lattice_d_finite by lra.
  destruct (no_arbitrage_moves r v q h Hv Hh) as [Hd Hu].
  cbn [np_exp np_sub np_neg np_add].
  rewrite np_div_nonzero by lra. reflexivity.
Qed.

Lemma lattice_pstar_degenerate (r v q h : R) :
  0 <= h -> v * sqrt h = 0 -> Lattice.pstar r v q h = NaN.
Proof.
  intros Hh Hz. unfold Lattice.pstar.
  rewrite lattice_u_finite, lattice_d_finite by exact Hh.
  unfold spec_u, spec_d. rewrite Hz, Rplus_0_r, Rminus_0_r.
  cbn [np_exp np_sub np_neg np_add].
  rewrite Rplus_opp_r. apply np_div_zero_zero.
Qed.

Lemma step_length_pos (T : R) (n : Z) : 0 < T -> (1 <= n)%Z -> 0 < T / IZR n.
Proof.
  intros HT Hn. apply Rdiv_lt_0_compat; [exact HT |].
  apply (IZR_lt 0). lia.
Qed.

(* ================================================================= *)
(** ** The loop of [binomialPricer] *)

Lemma fold_node_step S K n u d pstar payoff verbose (l : list nat) :
  forall acc out,
    fold_left (node_step S K n u d pstar payoff verbose) l (acc, out)
    = (fold_left np_add
         (map (fun i => payoff (node_spotT S n u d i) K
                        * binom_pmf (Z.of_nat i) n pstar)%np l) acc,
       if verbose
       then out ++ map (fun i => Line (node_spotT S n u d i)
                                      (payoff (node_spotT S n u d i) K)
                                      (binom_pmf (Z.of_nat i) n pstar)) l
       else out).
Proof.
  induction l as [| i l IH]; intros acc out.
  - destruct verbose; cbn; [rewrite app_nil_r |]; reflexivity.
  - cbn [fold_left map]. unfold node_step at 2. rewrite IH.
    destruct verbose; [| reflexivity].
    rewrite <- app_assoc. reflexivity.
Qed.

Lemma binom_pmf_in_support (i N : nat) (p : R) :
  (i <= N)%nat -> 0 <= p <= 1 ->
  binom_pmf (Z.of_nat i) (Z.of_nat N) (Fin p) = Fin (spec_node_probability p N i).
Proof.
  intros Hi [Hp0 Hp1]. unfold binom_pmf.
  replace (0 <=? Z.of_nat N)%Z with true by (symmetry; apply Z.leb_le; lia).
  destruct (Rle_dec 0 p); [| contradiction].
  destruct (Rle_dec p 1); [| contradiction].
  replace ((0 <=? Z.of_nat i) && (Z.of_nat i <=? Z.of_nat N))%Z with true.
  - rewrite !Nat2Z.id. reflexivity.
  - symmetry. apply andb_true_iff. split; apply Z.leb_le; lia.
Qed.

Lemma node_spotT_finite (S u d : R) (N i : nat) :
  (i <= N)%nat ->
  node_spotT S (Z.of_nat N) (Fin u) (Fin d) i = Fin (spec_terminal_spot S u d N i).
Proof.
  intros Hi. unfold node_spotT.
  replace (Z.of_nat N - Z.of_nat i)%Z with (Z.of_nat (N - i)) by lia.
  rewrite !np_pow_of_nat. reflexivity.
Qed.

(** With positive volatility and expiry and at least one step the call
    returns, and what it returns is the terminal-node sum. *)
Lemma binomialPricer_lattice (S K r v q T : R) (N : nat) payoff (verbose : bool) :
  0 < v -> 0 < T -> (1 <= N)%nat ->
  binomialPricer S K r v q T (Z.of_nat N) payoff verbose
  = Returned (spec_lattice_price S K r v q T N payoff,
              if verbose then spec_lattice_output S K r v q T N payoff else []).
Proof.
  intros Hv HT HN. unfold binomialPricer.
  assert (Hh : 0 < T / IZR (Z.of_nat N)) by (apply step_length_pos; [exact HT | lia]).
  rewrite py_truediv_nonzero by (apply not_0_IZR; lia). cbn [bind].
  rewrite <- INR_IZR_INZ in *.
  set (h := T / INR N) in *.
  rewrite lattice_u_finite, lattice_d_finite, lattice_pstar_finite by lra.
  rewrite fold_node_step.
  replace (Z.to_nat (Z.of_nat N + 1)) with (N + 1)%nat by lia.
  pose proof (spec_pstar_range r v q h Hv Hh) as Hp.
  f_equal. f_equal.
  - unfold spec_lattice_price, np_sum. fold h. f_equal. f_equal.
    apply map_ext_in. intros i Hi. apply in_seq in Hi.
    rewrite node_spotT_finite, binom_pmf_in_support by lia || lra.
    reflexivity.
  - destruct verbose; [| reflexivity]. cbn [app].
    unfold spec_lattice_output. fold h.
    apply map_ext_in. intros i Hi. apply in_seq in Hi.
    rewrite node_spotT_finite, binom_pmf_in_support by lia || lra.
    reflexivity.
Qed.

Lemma spec_lattice_price_finite (S K r sigma delta T : R) (N : nat) payoff (f : R -> R) :
  (forall s, payoff (Fin s) K = Fin (f s)) ->
  spec_lattice_price S K r sigma delta T N payoff
  = Fin (spec_expected_payoff S (spec_u r sigma delta (T / INR N))
           (spec_d r sigma delta (T / INR N)) (spec_pstar r sigma delta (T / INR N)) N f
         * exp (- r * T)).
Proof.
  intros Hf. unfold spec_lattice_price, spec_expected_payoff.
  rewrite (map_ext _ (fun i => Fin (f (spec_terminal_spot S
              (spec_u r sigma delta (T / INR N)) (spec_d r sigma delta (T / INR N)) N i)
            * spec_node_probability (spec_pstar r sigma delta (T / INR N)) N i)))
    by (intros i; rewrite Hf; reflexivity).
  rewrite np_sum_finite. reflexivity.
Qed.

(* ================================================================= *)
(** ** The terminal distribution *)

Lemma C_pos (N i : nat) : 0 < C N i.
Proof.
  unfold C. apply Rdiv_lt_0_compat; [| apply Rmult_lt_0_compat]; apply INR_fact_lt_0.
Qed.

Lemma spec_node_probability_pos (p : R) (N i : nat) :
  0 < p < 1 -> 0 < spec_node_probability p N i.
Proof.
  intros [Hp0 Hp1]. unfold spec_node_probability.
  apply Rmult_lt_0_compat; [apply Rmult_lt_0_compat |].
  - apply C_pos.
  - apply pow_lt, Hp0.
  - apply pow_lt. lra.
Qed.

Lemma node_probability_total (p : R) (N : nat) :
  sum_f_R0 (spec_node_probability p N) N = 1.
Proof.
  unfold spec_node_probability. rewrite <- binomial.
  replace (p + (1 - p)) with 1 by ring. apply pow1.
Qed.

Lemma node_probability_scaled (K p : R) (N : nat) :
  sum_f_R0 (fun i => K * spec_node_probability p N i) N = K.
Proof.
  rewrite (sum_eq _ (fun i => spec_node_probability p N i * K)) by (intros; ring).
  rewrite <- (scal_sum (spec_node_probability p N) N K), node_probability_total.
  ring.
Qed.

Lemma node_spot_mean (S u d p : R) (N : nat) :
  sum_f_R0 (fun i => spec_terminal_spot S u d N i * spec_node_probability p N i) N
  = S * (p * u + (1 - p) * d) ^ N.
Proof.
  rewrite binomial, scal_sum. apply sum_eq. intros i Hi.
  unfold spec_terminal_spot, spec_node_probability.
  rewrite !Rpow_mult_distr. ring.
Qed.

Lemma exp_pow_INR (a : R) (N : nat) : exp a ^ N = exp (INR N * a).
Proof.
  induction N as [| N IH].
  - rewrite Rmult_0_l, exp_0. reflexivity.
  - rewrite S_INR, <- tech_pow_Rmult, IH, <- exp_plus. f_equal. ring.
Qed.

Lemma max_difference (x : R) : Rmax x 0 - Rmax (- x) 0 = x.
Proof.
  destruct (Rle_dec 0 x).
  - rewrite (Rmax_left x 0), (Rmax_right (- x) 0) by lra. ring.
  - rewrite (Rmax_right x 0), (Rmax_left (- x) 0) by lra. ring.
Qed.

Lemma lattice_parity (S K r sigma delta T : R) (N : nat) :
  0 < sigma -> 0 < T -> (1 <= N)%nat ->
  let h := T / INR N in
  let u := spec_u r sigma delta h in
  let d := spec_d r sigma delta h in
  let p := spec_pstar r sigma delta h in
  spec_expected_payoff S u d p N (fun s => Rmax (s - K) 0) * exp (- r * T)
  - spec_expected_payoff S u d p N (fun s => Rmax (K - s) 0) * exp (- r * T)
  = S * exp (- delta * T) - K * exp (- r * T).
Proof.
  intros Hs HT HN h u d p.
  assert (HNpos : 0 < INR N) by (apply lt_0_INR; lia).
  assert (Hh : 0 < h) by (apply Rdiv_lt_0_compat; assumption).
  rewrite <- Rmult_minus_distr_r. unfold spec_expected_payoff.
  rewrite <- minus_sum.
  rewrite (sum_eq _ (fun i => spec_terminal_spot S u d N i * spec_node_probability p N i
                              - K * spec_node_probability p N i)).
  - rewrite minus_sum, node_spot_mean, node_probability_scaled.
    unfold p, u, d. rewrite pstar_martingale by assumption.
    rewrite exp_pow_INR.
    replace (INR N * ((r - delta) * h)) with ((r - delta) * T)
      by (unfold h; field; lra).
    replace (- delta * T) with ((r - delta) * T + - r * T) by ring.
    rewrite exp_plus. ring.
  - intros i Hi. cbv beta.
    replace (K - spec_terminal_spot S u d N i)
      with (- (spec_terminal_spot S u d N i - K)) by ring.
    transitivity ((Rmax (spec_terminal_spot S u d N i - K) 0
                   - Rmax (- (spec_terminal_spot S u d N i - K)) 0)
                  * spec_node_probability p N i); [ring |].
    rewrite max_difference. ring.
Qed.

Lemma spec_lattice_price_nonneg (S K r sigma delta T : R) (N : nat) payoff :
  0 < sigma -> 0 < T -> (1 <= N)%nat ->
  (forall s k, np_nonneg (payoff (Fin s) k)) ->
  np_nonneg (spec_lattice_price S K r sigma delta T N payoff).
Proof.
  intros Hs HT HN Hpay. unfold spec_lattice_price.
  apply np_mul_nonneg_pos; [| apply exp_pos].
  apply np_sum_nonneg; [| apply np_nonneg_zero].
  apply Forall_map, Forall_forall. intros i _.
  apply np_mul_nonneg_pos; [apply Hpay |].
  apply spec_node_probability_pos, spec_pstar_range; [exact Hs |].
  apply Rdiv_lt_0_compat; [exact HT | apply lt_0_INR; lia].
Qed.

(* ================================================================= *)
(** ** Degenerate parameters *)

Lemma blackScholesCall_degenerate (S K sigma r tau delta : R) :
  0 < S -> 0 < K -> 0 <= tau -> sigma = 0 \/ tau = 0 ->
  blackScholesCall S K sigma r tau delta = Returned (degenerate_call S K r tau delta).
Proof.
  intros HS HK Ht Hz. unfold blackScholesCall.
  rewrite py_truediv_nonzero by lra. cbn [bind].
  rewrite np_log_pos by (apply Rdiv_lt_0_compat; assumption).
  rewrite np_sqrt_nonneg by exact Ht. cbn [np_add np_mul].
  replace (sigma * sqrt tau) with 0
    by (destruct Hz as [-> | ->]; [| rewrite sqrt_0]; ring).
  replace (ln (S / K) + (r - delta + 0.5 * sigma * sigma) * tau)
    with (ln (S / K) + (r - delta) * tau)
    by (destruct Hz as [-> | ->]; ring).
  unfold degenerate_call.
  set (m := ln (S / K) + (r - delta) * tau).
  unfold np_div. destruct (Req_dec_T 0 0) as [_ | Hne]; [| contradiction].
  destruct (Rlt_dec 0 m); [| destruct (Rlt_dec m 0)]; cbn; try reflexivity.
  - do 2 f_equal. ring.
  - do 2 f_equal. ring.
Qed.

Lemma binomialPricer_degenerate (S K r v q T : R) (n : Z) payoff (verbose : bool) :
  (1 <= n)%Z -> 0 <= T -> v = 0 \/ T = 0 ->
  price_of (binomialPricer S K r v q T n payoff verbose) = Returned NaN.
Proof.
  intros Hn HT Hz. unfold binomialPricer.
  rewrite py_truediv_nonzero by (apply not_0_IZR; lia). cbn [bind].
  assert (Hh : 0 <= T / IZR n).
  { apply Rmult_le_pos; [exact HT |]. left. apply Rinv_0_lt_compat, (IZR_lt 0). lia. }
  rewrite lattice_pstar_degenerate; [| exact Hh |].
  - rewrite fold_node_step. unfold price_of. cbn [bind fst].
    replace (Z.to_nat (n + 1)) with (Datatypes.S (Z.to_nat n)) by lia.
    cbn [seq map fold_left]. rewrite np_mul_NaN_r, np_add_NaN_r.
    rewrite fold_add_NaN. reflexivity.
  - destruct Hz as [-> | ->]; [ring |].
    unfold Rdiv. rewrite Rmult_0_l, sqrt_0. ring.
Qed.

Lemma blackScholesCall_zero_strike (S sigma r tau delta : R) :
  blackScholesCall S 0 sigma r tau delta = Raised ZeroDivisionError.
Proof. unfold blackScholesCall. rewrite py_truediv_zero. reflexivity. Qed.

Lemma binomialPricer_zero_steps (S K r v q T : R) payoff verbose :
  binomialPricer S K r v q T 0 payoff verbose = Raised ZeroDivisionError.
Proof. unfold binomialPricer. rewrite py_truediv_zero. reflexivity. Qed.

Lemma blackScholesCall_raises (S K sigma r tau delta : R) (e : exn) :
  blackScholesCall S K sigma r tau delta = Raised e -> e = ZeroDivisionError /\ K = 0.
Proof.
  unfold blackScholesCall, py_truediv.
  destruct (Req_dec_T K 0) as [HK | HK]; cbn; intros H; inversion H; auto.
Qed.

Lemma binomialPricer_raises (S K r v q T : R) (n : Z) payoff verbose (e : exn) :
  binomialPricer S K r v q T n payoff verbose = Raised e ->
  e = ZeroDivisionError /\ n = 0%Z.
Proof.
  unfold binomialPricer, py_truediv.
  destruct (Req_dec_T (IZR n) 0) as [Hn | Hn]; cbn.
  - intros H. inversion H. split; [reflexivity | apply eq_IZR_R0, Hn].
  - destruct (fold_left _ _ _). intros H. inversion H.
Qed.

(* ================================================================= *)
(** ** The claims *)

(** C1: for valid parameters [blackScholesCall] returns
    [S e^(-delta tau) N(d1) - K e^(-r tau) N(d2)], where
    [d1 = (ln(S/K) + (r - delta + sigma^2/2) tau) / (sigma sqrt(tau))] and
    [d2 = d1 - sigma sqrt(tau)]. *)
Theorem blackScholesCall_closed_form (S K sigma r tau delta : R) :
  valid_params S K sigma tau delta ->
  let d1 := (ln (S / K) + (r - delta + 0.5 * (sigma * sigma)) * tau)
            / (sigma * sqrt tau) in
  let d2 := d1 - sigma * sqrt tau in
  blackScholesCall S K sigma r tau delta
  = Returned (Fin (S * exp (- delta * tau) * Phi d1 - K * exp (- r * tau) * Phi d2)).
Proof.
  intros [HS HK Hs Ht _]. cbv zeta.
  rewrite blackScholesCall_value by assumption. reflexivity.
Qed.

Lemma blackScholesCall_closed_form_witness :
  valid_params 41 40 (3 / 10) (1 / 4) 0
  /\ blackScholesCall 41 40 (3 / 10) (8 / 100) (1 / 4) 0
     = Returned (Fin (spec_call_price 41 40 (3 / 10) (8 / 100) (1 / 4) 0)).
Proof.
  assert (Hv : valid_params 41 40 (3 / 10) (1 / 4) 0) by (constructor; lra).
  split; [exact Hv |].
  exact (blackScholesCall_closed_form 41 40 (3 / 10) (8 / 100) (1 / 4) 0 Hv).
Defined.

(** C2: for valid parameters and [n >= 1] steps [binomialPricer] returns
    [e^(-r T)] times the sum, over the terminal nodes [i = 0..n], of
    [payoff (S u^i d^(n-i), K)] times [C(n,i) p^i (1-p)^(n-i)], with
    [h = T/n], [u = exp((r-q)h + v sqrt h)], [d = exp((r-q)h - v sqrt h)] and
    [p = (exp((r-q)h) - d) / (u - d)]; one pass over the terminal layer. *)
Theorem binomialPricer_terminal_sum (S K r v q T : R) (n : Z)
    (payoff : npfloat -> R -> npfloat) (verbose : bool) :
  valid_params S K v T q -> (1 <= n)%Z ->
  binomialPricer S K r v q T n payoff verbose
  = Returned (spec_lattice_price S K r v q T (Z.to_nat n) payoff,
              if verbose then spec_lattice_output S K r v q T (Z.to_nat n) payoff
              else []).
Proof.
  intros [_ _ Hv HT _] Hn.
  rewrite <- (Z2Nat.id n) at 1 by lia.
  apply binomialPricer_lattice; [exact Hv | exact HT | lia].
Qed.

Lemma binomialPricer_terminal_sum_witness :
  binomialPricer 41 40 (8 / 100) (3 / 10) 0 (1 / 4) 10 callPayoff false
  = Returned (spec_lattice_price 41 40 (8 / 100) (3 / 10) 0 (1 / 4) 10 callPayoff, []).
Proof.
  apply (binomialPricer_terminal_sum 41 40 (8 / 100) (3 / 10) 0 (1 / 4) 10
           callPayoff false).
  - constructor; lra.
  - lia.
Defined.

(** C3: for valid parameters [bsmCallDelta] returns [e^(-delta tau) N(d1)]
    and [bsmPutDelta] returns [e^(-delta tau) N(-d1)], with the [d1] of the
    price formula. *)
Theorem bsm_delta_formulas (S K sigma r tau delta : R) :
  valid_params S K sigma tau delta ->
  bsmCallDelta S K sigma r tau delta
  = Returned (Fin (exp (- delta * tau) * Phi (spec_d1 S K sigma r tau delta)))
  /\ bsmPutDelta S K sigma r tau delta
     = Returned (Fin (exp (- delta * tau) * Phi (- spec_d1 S K sigma r tau delta))).
Proof.
  intros [HS HK Hs Ht _]. split.
  - apply bsmCallDelta_value; assumption.
  - apply bsmPutDelta_value; assumption.
Qed.

Lemma bsm_delta_formulas_witness :
  bsmCallDelta 40 40 (3 / 10) (8 / 100) (91 / 365) 0
  = Returned (Fin (exp (- 0 * (91 / 365))
                   * Phi (spec_d1 40 40 (3 / 10) (8 / 100) (91 / 365) 0)))
  /\ bsmPutDelta 40 40 (3 / 10) (8 / 100) (91 / 365) 0
     = Returned (Fin (exp (- 0 * (91 / 365))
                      * Phi (- spec_d1 40 40 (3 / 10) (8 / 100) (91 / 365) 0))).
Proof.
  apply (bsm_delta_formulas 40 40 (3 / 10) (8 / 100) (91 / 365) 0).
  constructor; lra.
Defined.

(** C4, as the code has it: neither pricer checks its parameters.  No input
    makes one of them raise [InvalidParameter]; with volatility [0] or time
    to expiry [0] (spot and strike positive, at least one step) both return
    a value: [binomialPricer] returns NaN, and [blackScholesCall] returns
    [S e^(-delta tau) - K e^(-r tau)], [0] or NaN as
    [ln(S/K) + (r - delta) tau] is positive, negative or zero. *)
Theorem pricers_without_validation :
  (forall S K sigma r tau delta,
      blackScholesCall S K sigma r tau delta <> Raised InvalidParameter)
  /\ (forall S K r v q T n payoff verbose,
         binomialPricer S K r v q T n payoff verbose <> Raised InvalidParameter)
  /\ (forall S K sigma r tau delta n payoff verbose,
         0 < S -> 0 < K -> 0 <= sigma -> 0 <= tau -> sigma = 0 \/ tau = 0 ->
         (1 <= n)%Z ->
         blackScholesCall S K sigma r tau delta
         = Returned (degenerate_call S K r tau delta)
         /\ price_of (binomialPricer S K r sigma delta tau n payoff verbose)
            = Returned NaN).
Proof.
  split; [| split].
  - intros S K sigma r tau delta H.
    apply blackScholesCall_raises in H. destruct H as [H _]. discriminate H.
  - intros S K r v q T n payoff verbose H.
    apply binomialPricer_raises in H. destruct H as [H _]. discriminate H.
  - intros S K sigma r tau delta n payoff verbose HS HK Hs Ht Hz Hn. split.
    + apply blackScholesCall_degenerate; assumption.
    + apply binomialPricer_degenerate; assumption.
Qed.

Lemma pricers_without_validation_witness :
  blackScholesCall 41 40 0 (8 / 100) (1 / 4) 0
  = Returned (degenerate_call 41 40 (8 / 100) (1 / 4) 0)
  /\ price_of (binomialPricer 41 40 (8 / 100) 0 0 (1 / 4) 10 callPayoff false)
     = Returned NaN.
Proof.
  apply (proj2 (proj2 pricers_without_validation)); try lra.
  lia.
Defined.

Lemma ln_41_40_pos : 0 < ln (41 / 40) + (8 / 100 - 0) * (1 / 4).
Proof.
  assert (0 < ln (41 / 40)); [| lra].
  rewrite <- ln_1. apply ln_increasing; lra.
Qed.

(** C4 fails as stated: with volatility [0] the analytic pricer returns a
    finite number and the lattice pricer returns NaN; neither raises. *)
Lemma invalid_parameters_not_rejected :
  blackScholesCall 41 40 0 (8 / 100) (1 / 4) 0
  = Returned (Fin (41 * exp (- 0 * (1 / 4)) - 40 * exp (- (8 / 100) * (1 / 4))))
  /\ blackScholesCall 41 40 0 (8 / 100) (1 / 4) 0 <> Raised InvalidParameter
  /\ price_of (binomialPricer 41 40 (8 / 100) 0 0 (1 / 4) 10 callPayoff false)
     = Returned NaN
  /\ binomialPricer 41 40 (8 / 100) 0 0 (1 / 4) 10 callPayoff false
     <> Raised InvalidParameter.
Proof.
  assert (Hb : blackScholesCall 41 40 0 (8 / 100) (1 / 4) 0
               = Returned (Fin (41 * exp (- 0 * (1 / 4))
                                - 40 * exp (- (8 / 100) * (1 / 4))))).
  { rewrite blackScholesCall_degenerate by (lra || (left; reflexivity)).
    unfold degenerate_call.
    destruct (Rlt_dec 0 (ln (41 / 40) + (8 / 100 - 0) * (1 / 4))) as [_ | Hn].
    - reflexivity.
    - exfalso. apply Hn, ln_41_40_pos. }
  split; [exact Hb |]. split; [rewrite Hb; discriminate |]. split.
  - apply binomialPricer_degenerate; [lia | lra | left; reflexivity].
  - intros H. apply binomialPricer_raises in H. destruct H as [H _]. discriminate H.
Qed.

(** C5, on the textbook case of the notebook (spot 40, strike 40,
    volatility 0.30, rate 0.08, tau 91/365, no dividend): the two deltas the
    code returns add up to [e^(-delta tau)], so their difference is strictly
    smaller than [e^(-delta tau)]; the spot derivative of the put price is
    the returned call delta minus [e^(-delta tau)]. *)
Theorem delta_difference_textbook_case :
  exists c p : R,
    bsmCallDelta 40 40 (3 / 10) (8 / 100) (91 / 365) 0 = Returned (Fin c)
    /\ bsmPutDelta 40 40 (3 / 10) (8 / 100) (91 / 365) 0 = Returned (Fin p)
    /\ c + p = exp (- 0 * (91 / 365))
    /\ c - p < exp (- 0 * (91 / 365))
    /\ derivable_pt_lim
         (fun s => spec_put_price s 40 (3 / 10) (8 / 100) (91 / 365) 0) 40
         (c - exp (- 0 * (91 / 365))).
Proof.
  destruct (bsm_deltas_and_derivatives 40 40 (3 / 10) (8 / 100) (91 / 365) 0)
    as (c & p & Hc & Hp & _ & Hdp & Hcr & Hpr & Hsum); try lra.
  exists c, p. repeat split; try assumption; try lra.
  replace (c - exp (- 0 * (91 / 365))) with (- p) by lra. exact Hdp.
Qed.

(** C6, on the same textbook case: the call delta the code returns lies in
    [[0, e^(-delta tau)]]; the put delta it returns is strictly positive
    (and at most [e^(-delta tau)]), the opposite of the spot derivative of
    the put price. *)
Theorem put_delta_sign_textbook_case :
  exists c p : R,
    bsmCallDelta 40 40 (3 / 10) (8 / 100) (91 / 365) 0 = Returned (Fin c)
    /\ bsmPutDelta 40 40 (3 / 10) (8 / 100) (91 / 365) 0 = Returned (Fin p)
    /\ 0 <= c <= exp (- 0 * (91 / 365))
    /\ 0 < p <= exp (- 0 * (91 / 365))
    /\ derivable_pt_lim
         (fun s => spec_put_price s 40 (3 / 10) (8 / 100) (91 / 365) 0) 40 (- p).
Proof.
  destruct (bsm_deltas_and_derivatives 40 40 (3 / 10) (8 / 100) (91 / 365) 0)
    as (c & p & Hc & Hp & _ & Hdp & Hcr & Hpr & Hsum); try lra.
  exists c, p. repeat split; try assumption; lra.
Qed.

(** C7: put-call parity on the lattice.  For valid parameters and [n >= 1]
    the price with [callPayoff] minus the price with [putPayoff] is
    [S e^(-delta T) - K e^(-r T)]. *)
Theorem binomial_put_call_parity (S K r v q T : R) (n : Z) (verbose : bool) :
  valid_params S K v T q -> (1 <= n)%Z ->
  exists c p : R,
    price_of (binomialPricer S K r v q T n callPayoff verbose) = Returned (Fin c)
    /\ price_of (binomialPricer S K r v q T n putPayoff verbose) = Returned (Fin p)
    /\ c - p = S * exp (- q * T) - K * exp (- r * T).
Proof.
  intros [_ _ Hv HT _] Hn.
  assert (HN : (1 <= Z.to_nat n)%nat) by lia.
  rewrite <- (Z2Nat.id n) by lia.
  rewrite !binomialPricer_lattice by assumption.
  rewrite (spec_lattice_price_finite _ _ _ _ _ _ _ callPayoff
             (fun s => Rmax (s - K) 0)) by (intros; apply callPayoff_finite).
  rewrite (spec_lattice_price_finite _ _ _ _ _ _ _ putPayoff
             (fun s => Rmax (K - s) 0)) by (intros; apply putPayoff_finite).
  eexists. eexists. split; [reflexivity |]. split; [reflexivity |].
  apply lattice_parity; assumption.
Qed.

Lemma binomial_put_call_parity_witness :
  exists c p : R,
    price_of (binomialPricer 41 40 (8 / 100) (3 / 10) 0 (1 / 4) 10 callPayoff false)
    = Returned (Fin c)
    /\ price_of (binomialPricer 41 40 (8 / 100) (3 / 10) 0 (1 / 4) 10 putPayoff false)
       = Returned (Fin p)
    /\ c - p = 41 * exp (- 0 * (1 / 4)) - 40 * exp (- (8 / 100) * (1 / 4)).
Proof.
  apply (binomial_put_call_parity 41 40 (8 / 100) (3 / 10) 0 (1 / 4) 10 false).
  - constructor; lra.
  - lia.
Defined.

(** C8: with positive volatility and expiry and [n >= 1] the move sizes the
    pricer derives satisfy [d < exp((r-q)h) < u], and its risk-neutral
    probability lies strictly between [0] and [1]. *)
Theorem lattice_no_arbitrage (r v q T : R) (n : Z) :
  0 < v -> 0 < T -> (1 <= n)%Z ->
  exists h u d p : R,
    py_truediv T (IZR n) = Returned h
    /\ Lattice.u r v q h = Fin u
    /\ Lattice.d r v q h = Fin d
    /\ Lattice.pstar r v q h = Fin p
    /\ d < exp ((r - q) * h) < u
    /\ 0 < p < 1.
Proof.
  intros Hv HT Hn.
  pose proof (step_length_pos T n HT Hn) as Hh.
  exists (T / IZR n), (spec_u r v q (T / IZR n)), (spec_d r v q (T / IZR n)),
         (spec_pstar r v q (T / IZR n)).
  split; [apply py_truediv_nonzero, not_0_IZR; lia |].
  split; [apply lattice_u_finite; lra |].
  split; [apply lattice_d_finite; lra |].
  split; [apply lattice_pstar_finite; assumption |].
  split; [apply no_arbitrage_moves | apply spec_pstar_range]; assumption.
Qed.

Lemma lattice_no_arbitrage_witness :
  exists h u d p : R,
    py_truediv (1 / 4) (IZR 10) = Returned h
    /\ Lattice.u (8 / 100) (3 / 10) 0 h = Fin u
    /\ Lattice.d (8 / 100) (3 / 10) 0 h = Fin d
    /\ Lattice.pstar (8 / 100) (3 / 10) 0 h = Fin p
    /\ d < exp ((8 / 100 - 0) * h) < u
    /\ 0 < p < 1.
Proof.
  apply (lattice_no_arbitrage (8 / 100) (3 / 10) 0 (1 / 4) 10); [lra | lra | lia].
Defined.

(** C9: the [verbose] flag does not change the result of [binomialPricer]
    (the price, or the exception); it only decides whether the node lines
    are printed. *)
Theorem verbose_only_prints (S K r v q T : R) (n : Z)
    (payoff : npfloat -> R -> npfloat) :
  price_of (binomialPricer S K r v q T n payoff true)
  = price_of (binomialPricer S K r v q T n payoff false)
  /\ stdout_of (binomialPricer S K r v q T n payoff false) = [].
Proof.
  unfold binomialPricer.
  destruct (py_truediv T (IZR n)) as [h | e]; cbn [bind]; [| split; reflexivity].
  rewrite !fold_node_step. split; reflexivity.
Qed.

(** C10: with positive volatility and expiry, [n >= 1] and a payoff that
    is non-negative at every terminal spot, the price [binomialPricer]
    returns is non-negative. *)
Theorem binomialPricer_nonnegative (S K r v q T : R) (n : Z)
    (payoff : npfloat -> R -> npfloat) (verbose : bool) :
  0 < v -> 0 < T -> (1 <= n)%Z ->
  (forall s k, np_nonneg (payoff (Fin s) k)) ->
  exists price,
    price_of (binomialPricer S K r v q T n payoff verbose) = Returned price
    /\ np_nonneg price.
Proof.
  intros Hv HT Hn Hpay.
  assert (HN : (1 <= Z.to_nat n)%nat) by lia.
  rewrite <- (Z2Nat.id n) by lia.
  rewrite binomialPricer_lattice by assumption.
  eexists. split; [reflexivity |].
  apply spec_lattice_price_nonneg; assumption.
Qed.

Lemma binomialPricer_nonnegative_witness :
  exists price,
    price_of (binomialPricer 41 40 (8 / 100) (3 / 10) 0 (1 / 4) 10 putPayoff true)
    = Returned price
    /\ np_nonneg price.
Proof.
  apply (binomialPricer_nonnegative 41 40 (8 / 100) (3 / 10) 0 (1 / 4) 10
           putPayoff true); [lra | lra | lia |].
  intros s k. apply putPayoff_nonneg.
Defined.

(* ================================================================= *)
(** ** Further properties of the notebook's functions *)

(** *** Tails of the normal distribution function *)

Lemma area_gain (y z : R) :
  y <= z -> Gauss.area z - Gauss.area y <= exp (1 / 2 - y) - exp (1 / 2 - z).
Proof.
  intros [Hlt | ->]; [| lra].
  destruct (MVT_cor2 (fun t => Gauss.area t + exp (1 / 2 - t))
              (fun t => Gauss.kernel t + exp (1 / 2 - t) * (0 - 1)) y z Hlt)
    as [c [Hc _]].
  - intros c _.
    apply (derivable_pt_lim_plus Gauss.area (fun t => exp (1 / 2 - t))).
    + apply Gauss.area_derivable.
    + apply (derivable_pt_lim_comp (fun t => 1 / 2 - t) exp).
      * apply (derivable_pt_lim_minus (fun _ => 1 / 2) id).
        -- apply derivable_pt_lim_const.
        -- apply derivable_pt_lim_id.
      * apply derivable_pt_lim_exp.
  - cbv beta in Hc. pose proof (Gauss.kernel_tail c). nra.
Qed.

Lemma half_mass_tail (y : R) : Gauss.half_mass - Gauss.area y <= exp (1 / 2 - y).
Proof.
  assert (Hub : is_upper_bound Gauss.reached (Gauss.area y + exp (1 / 2 - y))).
  { intros v [z ->]. pose proof (exp_pos (1 / 2 - y)).
    destruct (Rle_lt_dec z y) as [Hz | Hz].
    - destruct Hz as [Hz | ->]; [apply Gauss.area_increasing in Hz |]; lra.
    - pose proof (area_gain y z (Rlt_le _ _ Hz)). pose proof (exp_pos (1 / 2 - z)). lra. }
  pose proof (proj2 Gauss.half_mass_lub _ Hub). lra.
Qed.

Lemma Phi_small (eps : R) : 0 < eps -> exists x, Phi x < eps.
Proof.
  intros Heps. pose proof Gauss.half_mass_pos as Hm.
  set (M := eps * (2 * Gauss.half_mass)).
  assert (HM : 0 < M) by (unfold M; nra).
  exists (- (3 / 2 - ln M)).
  rewrite Phi_symmetry. unfold Phi.
  pose proof (half_mass_tail (3 / 2 - ln M)) as Ht.
  replace (1 / 2 - (3 / 2 - ln M)) with (ln M + - 1) in Ht by lra.
  rewrite exp_plus, exp_ln in Ht by exact HM.
  assert (He : exp (- 1) < 1).
  { rewrite <- exp_0. apply exp_increasing. lra. }
  assert (Hq : Gauss.half_mass - Gauss.area (3 / 2 - ln M) < M) by nra.
  apply Rmult_lt_reg_r with (2 * Gauss.half_mass); [lra |].
  fold M. field_simplify; [| lra]. lra.
Qed.

Lemma Phi_monotone (a b : R) : a <= b -> Phi a <= Phi b.
Proof. intros [H | ->]; [left; apply Phi_increasing, H | right; reflexivity]. Qed.

(** *** The closed-form call price as a function of the spot *)

Section CallPrice.

Variables K sigma r tau delta : R.
Hypothesis HK : 0 < K.
Hypothesis Hsigma : 0 < sigma.
Hypothesis Htau : 0 < tau.

Lemma call_price_slope (s1 s2 : R) :
  0 < s1 -> s1 < s2 ->
  0 < spec_call_price s2 K sigma r tau delta - spec_call_price s1 K sigma r tau delta
    < exp (- delta * tau) * (s2 - s1).
Proof.
  intros H1 H12.
  destruct (MVT_cor2 (fun s => spec_call_price s K sigma r tau delta)
              (fun s => exp (- delta * tau) * Phi (spec_d1 s K sigma r tau delta))
              s1 s2 H12) as [c [Hc Hin]].
  - intros c Hc. apply call_price_derivable; lra.
  - cbv beta in Hc. rewrite Hc.
    pose proof (exp_pos (- delta * tau)).
    pose proof (Phi_pos (spec_d1 c K sigma r tau delta)).
    pose proof (Phi_lt_1 (spec_d1 c K sigma r tau delta)).
    assert (0 < exp (- delta * tau) * Phi (spec_d1 c K sigma r tau delta)
            < exp (- delta * tau)) by (split; nra).
    split; nra.
Qed.

Lemma spec_d2_at_exp (L : R) :
  spec_d2 (K * exp L) K sigma r tau delta
  = (L + (r - delta + 0.5 * (sigma * sigma)) * tau) / (sigma * sqrt tau)
    - sigma * sqrt tau.
Proof.
  unfold spec_d2, spec_d1.
  replace (K * exp L / K) with (exp L) by (field; lra).
  rewrite ln_exp. reflexivity.
Qed.

Lemma call_price_pos (S : R) : 0 < S -> 0 < spec_call_price S K sigma r tau delta.
Proof.
  intros HS.
  destruct (Rlt_le_dec 0 (spec_call_price S K sigma r tau delta)) as [Hpos | Hneg];
    [exact Hpos | exfalso].
  pose proof (vol_sqrt_pos sigma tau Hsigma Htau) as Hb.
  set (s1 := S / 2).
  assert (Hs1 : 0 < s1 < S) by (unfold s1; lra).
  pose proof (call_price_slope s1 S (proj1 Hs1) (proj2 Hs1)) as [Hslope _].
  set (eps := - spec_call_price s1 K sigma r tau delta).
  assert (Heps : 0 < eps) by (unfold eps; lra).
  pose proof (exp_pos (- r * tau)) as Her.
  destruct (Phi_small (eps / (K * exp (- r * tau)))) as [x Hx].
  { apply Rdiv_lt_0_compat; [exact Heps | nra]. }
  set (L := Rmin ((x + sigma * sqrt tau) * (sigma * sqrt tau)
                  - (r - delta + 0.5 * (sigma * sigma)) * tau)
                 (ln (s1 / K))).
  set (s2 := K * exp L).
  assert (Hs2 : 0 < s2) by (unfold s2; pose proof (exp_pos L); nra).
  assert (Hs21 : s2 <= s1).
  { unfold s2. replace s1 with (K * exp (ln (s1 / K))).
    - apply Rmult_le_compat_l; [lra |].
      destruct (Rmin_r ((x + sigma * sqrt tau) * (sigma * sqrt tau)
                  - (r - delta + 0.5 * (sigma * sigma)) * tau) (ln (s1 / K)))
        as [Hlt | Heq].
      + left. apply exp_increasing. exact Hlt.
      + right. fold L in Heq. rewrite Heq. reflexivity.
    - rewrite exp_ln by (apply Rdiv_lt_0_compat; lra). field. lra. }
  assert (Hd2 : spec_d2 s2 K sigma r tau delta <= x).
  { unfold s2. rewrite spec_d2_at_exp.
    pose proof (Rmin_l ((x + sigma * sqrt tau) * (sigma * sqrt tau)
                  - (r - delta + 0.5 * (sigma * sigma)) * tau) (ln (s1 / K))) as Hl.
    fold L in Hl.
    assert ((L + (r - delta + 0.5 * (sigma * sigma)) * tau) / (sigma * sqrt tau)
            <= x + sigma * sqrt tau); [| lra].
    apply Rmult_le_reg_r with (sigma * sqrt tau); [exact Hb |].
    unfold Rdiv. rewrite Rmult_assoc, Rinv_l by lra. lra. }
  assert (Hlow : - eps < spec_call_price s2 K sigma r tau delta).
  { unfold spec_call_price.
    pose proof (Phi_monotone _ _ Hd2) as Hm.
    pose proof (Phi_pos (spec_d1 s2 K sigma r tau delta)) as Hp1.
    pose proof (exp_pos (- delta * tau)) as Hed.
    assert (Hq : K * exp (- r * tau) * Phi x < eps).
    { apply Rmult_lt_reg_r with (/ (K * exp (- r * tau))).
      - apply Rinv_0_lt_compat. nra.
      - replace (K * exp (- r * tau) * Phi x * / (K * exp (- r * tau))) with (Phi x)
          by (field; split; lra).
        exact Hx. }
    assert (0 < s2 * exp (- delta * tau) * Phi (spec_d1 s2 K sigma r tau delta)).
    { apply Rmult_lt_0_compat; [apply Rmult_lt_0_compat |]; assumption. }
    assert (K * exp (- r * tau) * Phi (spec_d2 s2 K sigma r tau delta)
            <= K * exp (- r * tau) * Phi x).
    { apply Rmult_le_compat_l; [nra | exact Hm]. }
    lra. }
  destruct Hs21 as [Hlt | Heq].
  - pose proof (call_price_slope s2 s1 Hs2 Hlt) as [Hs _]. unfold eps in Hlow. lra.
  - rewrite Heq in Hlow. unfold eps in Hlow. lra.
Qed.

End CallPrice.

Lemma ln_swap (S K : R) : 0 < S -> 0 < K -> ln (K / S) = - ln (S / K).
Proof.
  intros HS HK. rewrite <- ln_Rinv by (apply Rdiv_lt_0_compat; assumption).
  f_equal. field. split; lra.
Qed.

Lemma put_call_symmetry (S K sigma r tau delta : R) :
  0 < S -> 0 < K -> 0 < sigma -> 0 < tau ->
  spec_put_price S K sigma r tau delta = spec_call_price K S sigma delta tau r.
Proof.
  intros HS HK Hs Ht.
  pose proof (sqrt_lt_R0 tau Ht) as Hq.
  assert (Hsq : sqrt tau * sqrt tau = tau) by (apply sqrt_sqrt; lra).
  assert (H1 : spec_d1 K S sigma delta tau r = - spec_d2 S K sigma r tau delta).
  { unfold spec_d2, spec_d1. rewrite (ln_swap S K HS HK).
    apply Rmult_eq_reg_r with (sigma * sqrt tau); [| nra].
    field_simplify; [| lra | lra].
    replace (sqrt tau ^ 2) with tau by (simpl; rewrite Rmult_1_r; lra).
    lra. }
  unfold spec_put_price, spec_call_price.
  unfold spec_d2 at 2. rewrite H1.
  replace (- spec_d2 S K sigma r tau delta - sigma * sqrt tau)
    with (- spec_d1 S K sigma r tau delta) by (unfold spec_d2; ring).
  reflexivity.
Qed.

Lemma put_price_pos (S K sigma r tau delta : R) :
  0 < S -> 0 < K -> 0 < sigma -> 0 < tau -> 0 < spec_put_price S K sigma r tau delta.
Proof.
  intros HS HK Hs Ht. rewrite put_call_symmetry by assumption.
  apply call_price_pos; assumption.
Qed.

(** *** The analytic functions *)

Lemma d1_finite_nonzero_vol (S K sigma r tau delta : R) :
  0 < S / K -> sigma <> 0 -> 0 < tau ->
  ((np_log (Fin (S / K)) + Fin ((r - delta + 0.5 * sigma * sigma) * tau))
   / (Fin sigma * np_sqrt (Fin tau)))%np = Fin (spec_d1 S K sigma r tau delta).
Proof.
  intros HSK Hs Ht.
  rewrite np_log_pos by exact HSK.
  rewrite np_sqrt_nonneg by lra. cbn [np_add np_mul].
  pose proof (sqrt_lt_R0 tau Ht).
  rewrite np_div_nonzero by nra.
  unfold spec_d1. do 3 f_equal. ring.
Qed.

Lemma blackScholesCall_value_nonzero_vol (S K sigma r tau delta : R) :
  K <> 0 -> 0 < S / K -> sigma <> 0 -> 0 < tau ->
  blackScholesCall S K sigma r tau delta
  = Returned (Fin (spec_call_price S K sigma r tau delta)).
Proof.
  intros HK HSK Hs Ht. unfold blackScholesCall.
  rewrite py_truediv_nonzero by exact HK. cbn [bind].
  rewrite d1_finite_nonzero_vol, np_sqrt_nonneg by (assumption || lra).
  reflexivity.
Qed.

Lemma spec_d1_neg_vol (S K sigma r tau delta : R) :
  sigma <> 0 -> 0 < tau ->
  spec_d1 S K (- sigma) r tau delta = - spec_d1 S K sigma r tau delta.
Proof.
  intros Hs Ht. pose proof (sqrt_lt_R0 tau Ht). unfold spec_d1. field. split; lra.
Qed.

Lemma call_price_neg_vol (S K sigma r tau delta : R) :
  sigma <> 0 -> 0 < tau ->
  spec_call_price S K (- sigma) r tau delta = - spec_put_price S K sigma r tau delta.
Proof.
  intros Hs Ht. unfold spec_call_price, spec_put_price, spec_d2.
  rewrite spec_d1_neg_vol by assumption.
  replace (- spec_d1 S K sigma r tau delta - - sigma * sqrt tau)
    with (- (spec_d1 S K sigma r tau delta - sigma * sqrt tau)) by ring.
  ring.
Qed.

Lemma spec_d1_scale (lam S K sigma r tau delta : R) :
  lam <> 0 -> K <> 0 ->
  spec_d1 (lam * S) (lam * K) sigma r tau delta = spec_d1 S K sigma r tau delta.
Proof.
  intros Hl HK. unfold spec_d1.
  replace (lam * S / (lam * K)) with (S / K) by (field; split; assumption).
  reflexivity.
Qed.

Lemma spec_d1_increasing (S1 S2 K sigma r tau delta : R) :
  0 < K -> 0 < sigma -> 0 < tau -> 0 < S1 -> S1 < S2 ->
  spec_d1 S1 K sigma r tau delta < spec_d1 S2 K sigma r tau delta.
Proof.
  intros HK Hs Ht H1 H12. pose proof (vol_sqrt_pos sigma tau Hs Ht) as Hb.
  unfold spec_d1. apply Rmult_lt_compat_r; [apply Rinv_0_lt_compat, Hb |].
  apply Rplus_lt_compat_r, ln_increasing.
  - apply Rdiv_lt_0_compat; lra.
  - apply Rmult_lt_compat_r; [apply Rinv_0_lt_compat, HK | exact H12].
Qed.

(** X1: each of [blackScholesCall], [bsmCallDelta] and [bsmPutDelta] raises
    exactly when the strike is [0], whatever the other parameters are, and
    the exception is [ZeroDivisionError]. *)
Theorem analytic_functions_raise_iff_zero_strike (S K sigma r tau delta : R) :
  (blackScholesCall S K sigma r tau delta = Raised ZeroDivisionError <-> K = 0)
  /\ (bsmCallDelta S K sigma r tau delta = Raised ZeroDivisionError <-> K = 0)
  /\ (bsmPutDelta S K sigma r tau delta = Raised ZeroDivisionError <-> K = 0)
  /\ (forall e, blackScholesCall S K sigma r tau delta = Raised e
                \/ bsmCallDelta S K sigma r tau delta = Raised e
                \/ bsmPutDelta S K sigma r tau delta = Raised e ->
                e = ZeroDivisionError).
Proof.
  unfold blackScholesCall, bsmCallDelta, bsmPutDelta, py_truediv.
  destruct (Req_dec_T K 0) as [HK | HK]; cbn [bind].
  - repeat split; auto. intros e [H | [H | H]]; inversion H; reflexivity.
  - repeat split; try (intros H; discriminate H); try contradiction.
    intros e [H | [H | H]]; discriminate H.
Qed.

(** X2: for valid parameters the price [blackScholesCall] returns is
    strictly positive, strictly above [S e^(-delta tau) - K e^(-r tau)] and
    strictly below [S e^(-delta tau)]. *)
Theorem blackScholesCall_price_bounds (S K sigma r tau delta : R) :
  valid_params S K sigma tau delta ->
  exists c : R,
    blackScholesCall S K sigma r tau delta = Returned (Fin c)
    /\ 0 < c
    /\ S * exp (- delta * tau) - K * exp (- r * tau) < c
    /\ c < S * exp (- delta * tau).
Proof.
  intros [HS HK Hs Ht _].
  exists (spec_call_price S K sigma r tau delta).
  split; [apply blackScholesCall_value; assumption |].
  split; [apply call_price_pos; assumption |].
  pose proof (put_price_pos S K sigma r tau delta HS HK Hs Ht) as Hp.
  rewrite put_price_parity in Hp. split; [lra |].
  unfold spec_call_price.
  pose proof (exp_pos (- delta * tau)). pose proof (exp_pos (- r * tau)).
  pose proof (Phi_lt_1 (spec_d1 S K sigma r tau delta)).
  pose proof (Phi_pos (spec_d2 S K sigma r tau delta)).
  assert (0 < K * exp (- r * tau) * Phi (spec_d2 S K sigma r tau delta)).
  { apply Rmult_lt_0_compat; [nra | assumption]. }
  assert (S * exp (- delta * tau) * Phi (spec_d1 S K sigma r tau delta)
          < S * exp (- delta * tau) * 1).
  { apply Rmult_lt_compat_l; [nra | assumption]. }
  lra.
Qed.

Lemma blackScholesCall_price_bounds_witness :
  exists c : R,
    blackScholesCall 41 40 (3 / 10) (8 / 100) (1 / 4) 0 = Returned (Fin c)
    /\ 0 < c
    /\ 41 * exp (- 0 * (1 / 4)) - 40 * exp (- (8 / 100) * (1 / 4)) < c
    /\ c < 41 * exp (- 0 * (1 / 4)).
Proof.
  apply (blackScholesCall_price_bounds 41 40 (3 / 10) (8 / 100) (1 / 4) 0).
  constructor; lra.
Defined.

(** X3: the price [blackScholesCall] returns is strictly increasing in the
    spot, and grows by less than [e^(-delta tau)] per unit of spot. *)
Theorem blackScholesCall_increasing_in_spot (S1 S2 K sigma r tau delta : R) :
  0 < S1 -> S1 < S2 -> 0 < K -> 0 < sigma -> 0 < tau ->
  exists c1 c2 : R,
    blackScholesCall S1 K sigma r tau delta = Returned (Fin c1)
    /\ blackScholesCall S2 K sigma r tau delta = Returned (Fin c2)
    /\ 0 < c2 - c1 < exp (- delta * tau) * (S2 - S1).
Proof.
  intros H1 H12 HK Hs Ht.
  exists (spec_call_price S1 K sigma r tau delta), (spec_call_price S2 K sigma r tau delta).
  split; [apply blackScholesCall_value; assumption || lra |].
  split; [apply blackScholesCall_value; assumption || lra |].
  apply call_price_slope; assumption.
Qed.

Lemma blackScholesCall_increasing_in_spot_witness :
  exists c1 c2 : R,
    blackScholesCall 40 40 (3 / 10) (8 / 100) (1 / 4) 0 = Returned (Fin c1)
    /\ blackScholesCall 41 40 (3 / 10) (8 / 100) (1 / 4) 0 = Returned (Fin c2)
    /\ 0 < c2 - c1 < exp (- 0 * (1 / 4)) * (41 - 40).
Proof.
  apply (blackScholesCall_increasing_in_spot 40 41 40 (3 / 10) (8 / 100) (1 / 4) 0);
    lra.
Defined.

(** X4: scaling spot and strike by the same positive factor scales the price
    [blackScholesCall] returns by that factor. *)
Theorem blackScholesCall_homogeneous (lam S K sigma r tau delta : R) :
  0 < lam -> valid_params S K sigma tau delta ->
  exists c : R,
    blackScholesCall S K sigma r tau delta = Returned (Fin c)
    /\ blackScholesCall (lam * S) (lam * K) sigma r tau delta = Returned (Fin (lam * c)).
Proof.
  intros Hl [HS HK Hs Ht _].
  exists (spec_call_price S K sigma r tau delta).
  split; [apply blackScholesCall_value; assumption |].
  rewrite blackScholesCall_value by (assumption || nra).
  unfold spec_call_price, spec_d2. rewrite spec_d1_scale by lra.
  do 2 f_equal. ring.
Qed.

Lemma blackScholesCall_homogeneous_witness :
  exists c : R,
    blackScholesCall 41 40 (3 / 10) (8 / 100) (1 / 4) 0 = Returned (Fin c)
    /\ blackScholesCall (2 * 41) (2 * 40) (3 / 10) (8 / 100) (1 / 4) 0
       = Returned (Fin (2 * c)).
Proof.
  apply (blackScholesCall_homogeneous 2 41 40 (3 / 10) (8 / 100) (1 / 4) 0).
  - lra.
  - constructor; lra.
Defined.

(** X5: a negative volatility is accepted: [blackScholesCall] then returns
    minus the put price at the opposite volatility, a strictly negative
    number. *)
Theorem blackScholesCall_negative_volatility (S K sigma r tau delta : R) :
  valid_params S K sigma tau delta ->
  exists c : R,
    blackScholesCall S K (- sigma) r tau delta = Returned (Fin c)
    /\ c = - spec_put_price S K sigma r tau delta
    /\ c < 0.
Proof.
  intros [HS HK Hs Ht _].
  exists (spec_call_price S K (- sigma) r tau delta).
  split.
  - apply blackScholesCall_value_nonzero_vol; try lra.
    apply Rdiv_lt_0_compat; assumption.
  - rewrite call_price_neg_vol by lra.
    pose proof (put_price_pos S K sigma r tau delta HS HK Hs Ht). split; lra.
Qed.

Lemma blackScholesCall_negative_volatility_witness :
  exists c : R,
    blackScholesCall 41 40 (- (3 / 10)) (8 / 100) (1 / 4) 0 = Returned (Fin c)
    /\ c = - spec_put_price 41 40 (3 / 10) (8 / 100) (1 / 4) 0
    /\ c < 0.
Proof.
  apply (blackScholesCall_negative_volatility 41 40 (3 / 10) (8 / 100) (1 / 4) 0).
  constructor; lra.
Defined.

(** X6: with spot [0] (strike, volatility and expiry positive)
    [blackScholesCall] returns [0]: the logarithm is [-inf], both normal
    probabilities are [0], and nothing is raised. *)
Theorem blackScholesCall_zero_spot (K sigma r tau delta : R) :
  0 < K -> 0 < sigma -> 0 < tau ->
  blackScholesCall 0 K sigma r tau delta = Returned (Fin 0).
Proof.
  intros HK Hs Ht. unfold blackScholesCall.
  rewrite py_truediv_nonzero by lra. cbn [bind].
  replace (0 / K) with 0 by (field; lra).
  rewrite np_sqrt_nonneg by lra.
  pose proof (vol_sqrt_pos sigma tau Hs Ht) as Hb.
  unfold np_log. destruct (Rlt_dec 0 0) as [H0 | _]; [lra |].
  destruct (Rlt_dec 0 0) as [H0 | _]; [lra |].
  cbn [np_add np_mul np_div].
  destruct (Rlt_dec (sigma * sqrt tau) 0) as [Hn | _]; [lra |].
  cbn. do 2 f_equal. ring.
Qed.

Lemma blackScholesCall_zero_spot_witness :
  blackScholesCall 0 40 (3 / 10) (8 / 100) (1 / 4) 0 = Returned (Fin 0).
Proof.
  apply (blackScholesCall_zero_spot 40 (3 / 10) (8 / 100) (1 / 4) 0); lra.
Defined.

(** X7: when spot and strike have opposite signs, or the expiry is negative,
    the three analytic functions return NaN (strike not [0]). *)
Theorem analytic_functions_nan (S K sigma r tau delta : R) :
  K <> 0 -> S / K < 0 \/ tau < 0 ->
  blackScholesCall S K sigma r tau delta = Returned NaN
  /\ bsmCallDelta S K sigma r tau delta = Returned NaN
  /\ bsmPutDelta S K sigma r tau delta = Returned NaN.
Proof.
  intros HK Hbad. unfold blackScholesCall, bsmCallDelta, bsmPutDelta.
  rewrite py_truediv_nonzero by exact HK. cbn [bind].
  assert (Hd1 : ((np_log (Fin (S / K)) + Fin ((r - delta + 0.5 * sigma * sigma) * tau))
                 / (Fin sigma * np_sqrt (Fin tau)))%np = NaN).
  { destruct (Rlt_dec tau 0) as [Ht | Ht].
    - unfold np_sqrt. destruct (Rlt_dec tau 0); [| contradiction].
      cbn [np_mul]. destruct (np_log (Fin (S / K)) + _)%np; reflexivity.
    - destruct Hbad as [Hq | Hq]; [| contradiction].
      unfold np_log. destruct (Rlt_dec 0 (S / K)); [lra |].
      destruct (Rlt_dec (S / K) 0); [| contradiction]. reflexivity. }
  rewrite Hd1. cbn [np_neg norm_cdf np_sub np_add].
  repeat split; reflexivity.
Qed.

Lemma analytic_functions_nan_witness :
  blackScholesCall (- 41) 40 (3 / 10) (8 / 100) (1 / 4) 0 = Returned NaN
  /\ bsmCallDelta (- 41) 40 (3 / 10) (8 / 100) (1 / 4) 0 = Returned NaN
  /\ bsmPutDelta (- 41) 40 (3 / 10) (8 / 100) (1 / 4) 0 = Returned NaN.
Proof.
  apply (analytic_functions_nan (- 41) 40 (3 / 10) (8 / 100) (1 / 4) 0).
  - lra.
  - left. lra.
Defined.

(** X8: the delta [bsmCallDelta] returns is strictly increasing in the spot,
    and the delta [bsmPutDelta] returns is strictly decreasing in it. *)
Theorem bsm_deltas_monotone_in_spot (S1 S2 K sigma r tau delta : R) :
  0 < S1 -> S1 < S2 -> 0 < K -> 0 < sigma -> 0 < tau ->
  exists c1 c2 p1 p2 : R,
    bsmCallDelta S1 K sigma r tau delta = Returned (Fin c1)
    /\ bsmCallDelta S2 K sigma r tau delta = Returned (Fin c2)
    /\ bsmPutDelta S1 K sigma r tau delta = Returned (Fin p1)
    /\ bsmPutDelta S2 K sigma r tau delta = Returned (Fin p2)
    /\ c1 < c2 /\ p2 < p1.
Proof.
  intros H1 H12 HK Hs Ht.
  pose proof (spec_d1_increasing S1 S2 K sigma r tau delta HK Hs Ht H1 H12) as Hd.
  pose proof (exp_pos (- delta * tau)) as He.
  do 4 eexists.
  split; [apply bsmCallDelta_value; assumption || lra |].
  split; [apply bsmCallDelta_value; assumption || lra |].
  split; [apply bsmPutDelta_value; assumption || lra |].
  split; [apply bsmPutDelta_value; assumption || lra |].
  split; apply Rmult_lt_compat_l; try exact He; apply Phi_increasing; lra.
Qed.

Lemma bsm_deltas_monotone_in_spot_witness :
  exists c1 c2 p1 p2 : R,
    bsmCallDelta 40 40 (3 / 10) (8 / 100) (91 / 365) 0 = Returned (Fin c1)
    /\ bsmCallDelta 41 40 (3 / 10) (8 / 100) (91 / 365) 0 = Returned (Fin c2)
    /\ bsmPutDelta 40 40 (3 / 10) (8 / 100) (91 / 365) 0 = Returned (Fin p1)
    /\ bsmPutDelta 41 40 (3 / 10) (8 / 100) (91 / 365) 0 = Returned (Fin p2)
    /\ c1 < c2 /\ p2 < p1.
Proof.
  apply (bsm_deltas_monotone_in_spot 40 41 40 (3 / 10) (8 / 100) (91 / 365) 0); lra.
Defined.

(** X9: for valid parameters [bsmCallDelta] returns the derivative, with
    respect to the spot, of the price [blackScholesCall] returns. *)
Theorem bsmCallDelta_is_price_derivative (S K sigma r tau delta : R) :
  valid_params S K sigma tau delta ->
  exists c : R,
    bsmCallDelta S K sigma r tau delta = Returned (Fin c)
    /\ derivable_pt_lim (fun s => value_of (blackScholesCall s K sigma r tau delta)) S c.
Proof.
  intros [HS HK Hs Ht _].
  exists (exp (- delta * tau) * Phi (spec_d1 S K sigma r tau delta)).
  split; [apply bsmCallDelta_value; assumption |].
  apply (derivable_pt_lim_locally_ext
           (fun s => spec_call_price s K sigma r tau delta) _ S (S / 2) (2 * S)).
  - lra.
  - intros s Hs'. rewrite blackScholesCall_value by (assumption || lra). reflexivity.
  - apply call_price_derivable; assumption.
Qed.

Lemma bsmCallDelta_is_price_derivative_witness :
  exists c : R,
    bsmCallDelta 40 40 (3 / 10) (8 / 100) (91 / 365) 0 = Returned (Fin c)
    /\ derivable_pt_lim
         (fun s => value_of (blackScholesCall s 40 (3 / 10) (8 / 100) (91 / 365) 0))
         40 c.
Proof.
  apply (bsmCallDelta_is_price_derivative 40 40 (3 / 10) (8 / 100) (91 / 365) 0).
  constructor; lra.
Defined.

(** *** The lattice with a volatility of either sign *)

Lemma sum_f_R0_reverse (f : nat -> R) (N : nat) :
  sum_f_R0 (fun i => f (N - i)%nat) N = sum_f_R0 f N.
Proof.
  induction N as [| N IH].
  - reflexivity.
  - rewrite decomp_sum by lia. cbn [pred].
    rewrite (sum_eq _ (fun i => f (N - i)%nat)) by (intros; f_equal; lia).
    rewrite IH, tech5. replace (S N - 0)%nat with (S N) by lia. ring.
Qed.

Section LatticeStepSigned.

Variables r v q h : R.
Hypothesis Hv : v <> 0.
Hypothesis Hh : 0 < h.

Lemma spec_moves_distinct : spec_u r v q h <> spec_d r v q h.
Proof.
  unfold spec_u, spec_d. pose proof (sqrt_lt_R0 h Hh) as Hq.
  destruct (Rtotal_order v 0) as [Hn | [Hz | Hp]]; [| contradiction |].
  - apply Rlt_not_eq, exp_increasing. nra.
  - apply Rgt_not_eq, exp_increasing. nra.
Qed.

Lemma spec_u_neg : spec_u r (- v) q h = spec_d r v q h.
Proof. unfold spec_u, spec_d. f_equal. ring. Qed.

Lemma spec_d_neg : spec_d r (- v) q h = spec_u r v q h.
Proof. unfold spec_u, spec_d. f_equal. ring. Qed.

Lemma spec_pstar_neg : spec_pstar r (- v) q h = 1 - spec_pstar r v q h.
Proof.
  unfold spec_pstar. rewrite spec_u_neg, spec_d_neg.
  pose proof spec_moves_distinct. field. split; lra.
Qed.

Lemma lattice_pstar_finite_nonzero_vol :
  Lattice.pstar r v q h = Fin (spec_pstar r v q h).
Proof.
  unfold Lattice.pstar.
  rewrite lattice_u_finite, lattice_d_finite by lra.
  pose proof spec_moves_distinct.
  cbn [np_exp np_sub np_neg np_add].
  rewrite np_div_nonzero by lra. reflexivity.
Qed.

End LatticeStepSigned.

Lemma spec_pstar_range_nonzero_vol (r v q h : R) :
  v <> 0 -> 0 < h -> 0 < spec_pstar r v q h < 1.
Proof.
  intros Hv Hh. destruct (Rtotal_order v 0) as [Hn | [Hz | Hp]]; [| contradiction |].
  - assert (Hpos : 0 < - v) by lra.
    pose proof (spec_pstar_range r (- v) q h Hpos Hh) as Hr.
    rewrite spec_pstar_neg in Hr by (lra || assumption). lra.
  - apply spec_pstar_range; assumption.
Qed.

Lemma binomialPricer_lattice_nonzero_vol (S K r v q T : R) (N : nat) payoff
    (verbose : bool) :
  v <> 0 -> 0 < T -> (1 <= N)%nat ->
  binomialPricer S K r v q T (Z.of_nat N) payoff verbose
  = Returned (spec_lattice_price S K r v q T N payoff,
              if verbose then spec_lattice_output S K r v q T N payoff else []).
Proof.
  intros Hv HT HN. unfold binomialPricer.
  assert (Hh : 0 < T / IZR (Z.of_nat N)) by (apply step_length_pos; [exact HT | lia]).
  rewrite py_truediv_nonzero by (apply not_0_IZR; lia). cbn [bind].
  rewrite <- INR_IZR_INZ in *.
  set (h := T / INR N) in *.
  rewrite lattice_u_finite, lattice_d_finite by lra.
  rewrite lattice_pstar_finite_nonzero_vol by assumption.
  rewrite fold_node_step.
  replace (Z.to_nat (Z.of_nat N + 1)) with (N + 1)%nat by lia.
  pose proof (spec_pstar_range_nonzero_vol r v q h Hv Hh) as Hp.
  f_equal. f_equal.
  - unfold spec_lattice_price, np_sum. fold h. f_equal. f_equal.
    apply map_ext_in. intros i Hi. apply in_seq in Hi.
    rewrite node_spotT_finite, binom_pmf_in_support by lia || lra.
    reflexivity.
  - destruct verbose; [| reflexivity]. cbn [app].
    unfold spec_lattice_output. fold h.
    apply map_ext_in. intros i Hi. apply in_seq in Hi.
    rewrite node_spotT_finite, binom_pmf_in_support by lia || lra.
    reflexivity.
Qed.

Lemma binomialPricer_real_payoff (S K r v q T : R) (n : Z) payoff (f : R -> R)
    (verbose : bool) :
  v <> 0 -> 0 < T -> (1 <= n)%Z ->
  (forall s, payoff (Fin s) K = Fin (f s)) ->
  price_of (binomialPricer S K r v q T n payoff verbose)
  = Returned (Fin (spec_lattice_value S r v q T (Z.to_nat n) f)).
Proof.
  intros Hv HT Hn Hf.
  rewrite <- (Z2Nat.id n) at 1 by lia.
  rewrite binomialPricer_lattice_nonzero_vol by (assumption || lia).
  rewrite (spec_lattice_price_finite _ _ _ _ _ _ _ payoff f Hf). reflexivity.
Qed.

Lemma expected_payoff_swap (S u d p : R) (N : nat) (f : R -> R) :
  spec_expected_payoff S d u (1 - p) N f = spec_expected_payoff S u d p N f.
Proof.
  unfold spec_expected_payoff.
  rewrite <- (sum_f_R0_reverse
                (fun i => f (spec_terminal_spot S u d N i) * spec_node_probability p N i)).
  apply sum_eq. intros i Hi.
  unfold spec_terminal_spot, spec_node_probability.
  rewrite <- (pascal_step1 N i Hi).
  replace (N - (N - i))%nat with i by lia.
  replace (1 - (1 - p)) with p by ring.
  f_equal; [f_equal |]; ring.
Qed.

Lemma lattice_value_even (S r v q T : R) (N : nat) (f : R -> R) :
  v <> 0 -> 0 < T -> (1 <= N)%nat ->
  spec_lattice_value S r (- v) q T N f = spec_lattice_value S r v q T N f.
Proof.
  intros Hv HT HN. unfold spec_lattice_value.
  assert (Hh : 0 < T / INR N).
  { apply Rdiv_lt_0_compat; [exact HT | apply lt_0_INR; lia]. }
  rewrite spec_u_neg, spec_d_neg, spec_pstar_neg by assumption.
  rewrite expected_payoff_swap. reflexivity.
Qed.

Lemma lattice_forward (S r v q T : R) (N : nat) :
  v <> 0 -> 0 < T -> (1 <= N)%nat ->
  spec_lattice_value S r v q T N (fun s => s) = S * exp (- q * T).
Proof.
  intros Hv HT HN. unfold spec_lattice_value, spec_expected_payoff.
  assert (HNpos : 0 < INR N) by (apply lt_0_INR; lia).
  assert (Hh : 0 < T / INR N) by (apply Rdiv_lt_0_compat; assumption).
  rewrite node_spot_mean.
  assert (Hm : spec_pstar r v q (T / INR N) * spec_u r v q (T / INR N)
               + (1 - spec_pstar r v q (T / INR N)) * spec_d r v q (T / INR N)
               = exp ((r - q) * (T / INR N))).
  { pose proof (spec_moves_distinct r v q (T / INR N) Hv Hh).
    unfold spec_pstar. field. lra. }
  rewrite Hm, exp_pow_INR.
  replace (INR N * ((r - q) * (T / INR N))) with ((r - q) * T) by (field; lra).
  replace (- q * T) with ((r - q) * T + - r * T) by ring.
  rewrite exp_plus. ring.
Qed.

Lemma lattice_constant (S r v q T c : R) (N : nat) :
  spec_lattice_value S r v q T N (fun _ => c) = c * exp (- r * T).
Proof.
  unfold spec_lattice_value, spec_expected_payoff.
  rewrite node_probability_scaled. reflexivity.
Qed.

Lemma lattice_value_monotone (S r v q T : R) (N : nat) (f g : R -> R) :
  v <> 0 -> 0 < T -> (1 <= N)%nat ->
  (forall i, (i <= N)%nat ->
     f (spec_terminal_spot S (spec_u r v q (T / INR N)) (spec_d r v q (T / INR N)) N i)
     <= g (spec_terminal_spot S (spec_u r v q (T / INR N)) (spec_d r v q (T / INR N)) N i)) ->
  spec_lattice_value S r v q T N f <= spec_lattice_value S r v q T N g.
Proof.
  intros Hv HT HN Hfg. unfold spec_lattice_value, spec_expected_payoff.
  assert (Hh : 0 < T / INR N).
  { apply Rdiv_lt_0_compat; [exact HT | apply lt_0_INR; lia]. }
  apply Rmult_le_compat_r; [left; apply exp_pos |].
  apply sum_Rle. intros i Hi.
  apply Rmult_le_compat_r; [| apply Hfg, Hi].
  left. apply spec_node_probability_pos, spec_pstar_range_nonzero_vol; assumption.
Qed.

Lemma lattice_value_linear (S r v q T a b : R) (N : nat) (f g : R -> R) :
  spec_lattice_value S r v q T N (fun s => a * f s + b * g s)
  = a * spec_lattice_value S r v q T N f + b * spec_lattice_value S r v q T N g.
Proof.
  unfold spec_lattice_value, spec_expected_payoff.
  set (u := spec_u r v q (T / INR N)). set (d := spec_d r v q (T / INR N)).
  set (p := spec_pstar r v q (T / INR N)).
  rewrite (sum_eq _ (fun i =>
             (f (spec_terminal_spot S u d N i) * spec_node_probability p N i) * a
             + (g (spec_terminal_spot S u d N i) * spec_node_probability p N i) * b))
    by (intros; ring).
  rewrite plus_sum.
  rewrite <- (scal_sum (fun i => f (spec_terminal_spot S u d N i)
                                 * spec_node_probability p N i) N a).
  rewrite <- (scal_sum (fun i => g (spec_terminal_spot S u d N i)
                                 * spec_node_probability p N i) N b).
  ring.
Qed.

Lemma spec_terminal_spot_pos (S u d : R) (N i : nat) :
  0 < S -> 0 < u -> 0 < d -> 0 < spec_terminal_spot S u d N i.
Proof.
  intros HS Hu Hd. unfold spec_terminal_spot.
  apply Rmult_lt_0_compat; [apply Rmult_lt_0_compat |]; auto using pow_lt.
Qed.

Lemma spec_terminal_spot_step (S u d : R) (N i : nat) :
  0 < S -> 0 < d -> d < u -> (i < N)%nat ->
  spec_terminal_spot S u d N i < spec_terminal_spot S u d N (i + 1).
Proof.
  intros HS Hd Hdu Hi. unfold spec_terminal_spot.
  replace (N - i)%nat with (Datatypes.S (N - (i + 1))) by lia.
  replace (i + 1)%nat with (Datatypes.S i) by lia.
  cbn [pow].
  assert (0 < u ^ i) by (apply pow_lt; lra).
  assert (0 < d ^ (N - Datatypes.S i)) by (apply pow_lt; lra).
  assert (0 < S * u ^ i * d ^ (N - Datatypes.S i)).
  { apply Rmult_lt_0_compat; [apply Rmult_lt_0_compat |]; assumption. }
  nra.
Qed.

(** *** The lattice pricer *)

Lemma binomialPricer_fold (S K r v q T : R) (n : Z) payoff (verbose : bool) :
  n <> 0%Z ->
  let h := T / IZR n in
  let spotT := node_spotT S n (Lattice.u r v q h) (Lattice.d r v q h) in
  let prob := fun i => binom_pmf (Z.of_nat i) n (Lattice.pstar r v q h) in
  let nodes := seq 0 (Z.to_nat (n + 1)) in
  binomialPricer S K r v q T n payoff verbose
  = Returned ((fold_left np_add (map (fun i => payoff (spotT i) K * prob i)%np nodes)
                         (Fin 0)
               * np_exp (Fin (- r * T)))%np,
              if verbose
              then map (fun i => Line (spotT i) (payoff (spotT i) K) (prob i)) nodes
              else []).
Proof.
  intros Hn. cbv zeta. unfold binomialPricer.
  rewrite py_truediv_nonzero by (apply not_0_IZR; exact Hn). cbn [bind].
  rewrite fold_node_step. destruct verbose; reflexivity.
Qed.

(** X12: [binomialPricer] raises exactly when the step count is [0], whatever
    the other arguments are, and the exception is [ZeroDivisionError]. *)
Theorem binomialPricer_raises_iff_zero_steps (S K r v q T : R) (n : Z)
    (payoff : npfloat -> R -> npfloat) (verbose : bool) :
  (binomialPricer S K r v q T n payoff verbose = Raised ZeroDivisionError <-> n = 0%Z)
  /\ (forall e, binomialPricer S K r v q T n payoff verbose = Raised e ->
                e = ZeroDivisionError).
Proof.
  split; [split |].
  - intros H. apply binomialPricer_raises in H. tauto.
  - intros ->. apply binomialPricer_zero_steps.
  - intros e H. apply binomialPricer_raises in H. tauto.
Qed.

(** X13: a negative step count is accepted: the loop does not run, the price
    returned is [0] and nothing is printed, whatever the other arguments. *)
Theorem binomialPricer_negative_steps (S K r v q T : R) (n : Z)
    (payoff : npfloat -> R -> npfloat) (verbose : bool) :
  (n < 0)%Z ->
  binomialPricer S K r v q T n payoff verbose = Returned (Fin 0, []).
Proof.
  intros Hn. rewrite binomialPricer_fold by lia.
  replace (Z.to_nat (n + 1)) with 0%nat by lia.
  cbn. destruct verbose; do 3 f_equal; ring.
Qed.

Lemma binomialPricer_negative_steps_witness :
  binomialPricer 41 40 (8 / 100) (3 / 10) 0 (1 / 4) (- 5) callPayoff true
  = Returned (Fin 0, []).
Proof.
  apply (binomialPricer_negative_steps 41 40 (8 / 100) (3 / 10) 0 (1 / 4) (- 5)
           callPayoff true).
  lia.
Defined.

(** X14: with a negative time to expiry and at least one step
    [binomialPricer] returns NaN. *)
Theorem binomialPricer_negative_expiry (S K r v q T : R) (n : Z)
    (payoff : npfloat -> R -> npfloat) (verbose : bool) :
  (1 <= n)%Z -> T < 0 ->
  price_of (binomialPricer S K r v q T n payoff verbose) = Returned NaN.
Proof.
  intros Hn HT. rewrite binomialPricer_fold by lia.
  assert (Hh : T / IZR n < 0).
  { assert (0 < / IZR n) by (apply Rinv_0_lt_compat, (IZR_lt 0); lia).
    unfold Rdiv. nra. }
  assert (Hp : Lattice.pstar r v q (T / IZR n) = NaN).
  { unfold Lattice.pstar, Lattice.u, Lattice.d, np_sqrt.
    destruct (Rlt_dec (T / IZR n) 0); [reflexivity | contradiction]. }
  rewrite Hp. unfold price_of. cbn [bind fst].
  replace (Z.to_nat (n + 1)) with (Datatypes.S (Z.to_nat n)) by lia.
  cbn [seq map fold_left]. rewrite np_mul_NaN_r, np_add_NaN_r, fold_add_NaN.
  reflexivity.
Qed.

Lemma binomialPricer_negative_expiry_witness :
  price_of (binomialPricer 41 40 (8 / 100) (3 / 10) 0 (- (1 / 4)) 10 callPayoff false)
  = Returned NaN.
Proof.
  apply (binomialPricer_negative_expiry 41 40 (8 / 100) (3 / 10) 0 (- (1 / 4)) 10
           callPayoff false).
  - lia.
  - lra.
Defined.

(** X15: [binomialPricer] ignores the sign of the volatility: with a payoff
    that is finite at finite spots, [v] and [-v] give the same price (the up
    and down moves swap, and so do [pstar] and [1 - pstar]). *)
Theorem binomialPricer_even_in_volatility (S K r v q T : R) (n : Z)
    (payoff : npfloat -> R -> npfloat) (f : R -> R) (verbose : bool) :
  v <> 0 -> 0 < T -> (1 <= n)%Z ->
  (forall s, payoff (Fin s) K = Fin (f s)) ->
  price_of (binomialPricer S K r (- v) q T n payoff verbose)
  = price_of (binomialPricer S K r v q T n payoff verbose).
Proof.
  intros Hv HT Hn Hf.
  rewrite !(binomialPricer_real_payoff S K r _ q T n payoff f) by (assumption || lra).
  rewrite lattice_value_even by (assumption || lia). reflexivity.
Qed.

Lemma binomialPricer_even_in_volatility_witness :
  price_of (binomialPricer 41 40 (8 / 100) (- (3 / 10)) 0 (1 / 4) 10 callPayoff false)
  = price_of (binomialPricer 41 40 (8 / 100) (3 / 10) 0 (1 / 4) 10 callPayoff false).
Proof.
  apply (binomialPricer_even_in_volatility 41 40 (8 / 100) (3 / 10) 0 (1 / 4) 10
           callPayoff (fun s => Rmax (s - 40) 0) false).
  - lra.
  - lra.
  - lia.
  - intros s. reflexivity.
Defined.

(** X16: a payoff that is pointwise larger gets a price at least as large. *)
Theorem binomialPricer_monotone_in_payoff (S K r v q T : R) (n : Z)
    (payoff1 payoff2 : npfloat -> R -> npfloat) (f g : R -> R) (verbose : bool) :
  0 < v -> 0 < T -> (1 <= n)%Z ->
  (forall s, payoff1 (Fin s) K = Fin (f s)) ->
  (forall s, payoff2 (Fin s) K = Fin (g s)) ->
  (forall s, f s <= g s) ->
  exists c1 c2 : R,
    price_of (binomialPricer S K r v q T n payoff1 verbose) = Returned (Fin c1)
    /\ price_of (binomialPricer S K r v q T n payoff2 verbose) = Returned (Fin c2)
    /\ c1 <= c2.
Proof.
  intros Hv HT Hn Hf Hg Hfg.
  do 2 eexists.
  split; [apply (binomialPricer_real_payoff _ _ _ _ _ _ _ _ f); assumption || lra |].
  split; [apply (binomialPricer_real_payoff _ _ _ _ _ _ _ _ g); assumption || lra |].
  apply lattice_value_monotone; try lra; try lia. intros; apply Hfg.
Qed.

Lemma binomialPricer_monotone_in_payoff_witness :
  exists c1 c2 : R,
    price_of (binomialPricer 41 40 (8 / 100) (3 / 10) 0 (1 / 4) 10
                (fun _ _ => Fin 0) false) = Returned (Fin c1)
    /\ price_of (binomialPricer 41 40 (8 / 100) (3 / 10) 0 (1 / 4) 10
                   callPayoff false) = Returned (Fin c2)
    /\ c1 <= c2.
Proof.
  apply (binomialPricer_monotone_in_payoff 41 40 (8 / 100) (3 / 10) 0 (1 / 4) 10
           (fun _ _ => Fin 0) callPayoff (fun _ => 0) (fun s => Rmax (s - 40) 0) false).
  - lra.
  - lra.
  - lia.
  - intros s. reflexivity.
  - intros s. reflexivity.
  - intros s. apply Rmax_r.
Defined.

(** X17: the price is linear in the payoff: the payoff [a f + b g] is priced
    at [a] times the price of [f] plus [b] times the price of [g]. *)
Theorem binomialPricer_linear_in_payoff (S K r v q T a b : R) (n : Z)
    (payoff1 payoff2 payoff3 : npfloat -> R -> npfloat) (f g : R -> R)
    (verbose : bool) :
  0 < v -> 0 < T -> (1 <= n)%Z ->
  (forall s, payoff1 (Fin s) K = Fin (f s)) ->
  (forall s, payoff2 (Fin s) K = Fin (g s)) ->
  (forall s, payoff3 (Fin s) K = Fin (a * f s + b * g s)) ->
  exists c1 c2 : R,
    price_of (binomialPricer S K r v q T n payoff1 verbose) = Returned (Fin c1)
    /\ price_of (binomialPricer S K r v q T n payoff2 verbose) = Returned (Fin c2)
    /\ price_of (binomialPricer S K r v q T n payoff3 verbose)
       = Returned (Fin (a * c1 + b * c2)).
Proof.
  intros Hv HT Hn Hf Hg Hfg.
  do 2 eexists.
  split; [apply (binomialPricer_real_payoff _ _ _ _ _ _ _ _ f); assumption || lra |].
  split; [apply (binomialPricer_real_payoff _ _ _ _ _ _ _ _ g); assumption || lra |].
  rewrite (binomialPricer_real_payoff _ _ _ _ _ _ _ _ (fun s => a * f s + b * g s))
    by (assumption || lra).
  rewrite lattice_value_linear. reflexivity.
Qed.

Lemma binomialPricer_linear_in_payoff_witness :
  exists c1 c2 : R,
    price_of (binomialPricer 41 40 (8 / 100) (3 / 10) 0 (1 / 4) 10
                callPayoff false) = Returned (Fin c1)
    /\ price_of (binomialPricer 41 40 (8 / 100) (3 / 10) 0 (1 / 4) 10
                   putPayoff false) = Returned (Fin c2)
    /\ price_of (binomialPricer 41 40 (8 / 100) (3 / 10) 0 (1 / 4) 10
                   (fun s k => Fin 2 * callPayoff s k + Fin 3 * putPayoff s k)%np
                   false)
       = Returned (Fin (2 * c1 + 3 * c2)).
Proof.
  apply (binomialPricer_linear_in_payoff 41 40 (8 / 100) (3 / 10) 0 (1 / 4) 2 3 10
           callPayoff putPayoff
           (fun s k => Fin 2 * callPayoff s k + Fin 3 * putPayoff s k)%np
           (fun s => Rmax (s - 40) 0) (fun s => Rmax (40 - s) 0) false).
  - lra.
  - lra.
  - lia.
  - intros s. reflexivity.
  - intros s. reflexivity.
  - intros s. reflexivity.
Defined.

(** X18: a payoff that pays the constant [c] at every node is priced at
    [c e^(-r T)], for every step count. *)
Theorem binomialPricer_constant_payoff (S K r v q T c : R) (n : Z) (verbose : bool) :
  0 < v -> 0 < T -> (1 <= n)%Z ->
  price_of (binomialPricer S K r v q T n (fun _ _ => Fin c) verbose)
  = Returned (Fin (c * exp (- r * T))).
Proof.
  intros Hv HT Hn.
  rewrite (binomialPricer_real_payoff _ _ _ _ _ _ _ _ (fun _ => c))
    by (reflexivity || assumption || lra).
  rewrite lattice_constant. reflexivity.
Qed.

Lemma binomialPricer_constant_payoff_witness :
  price_of (binomialPricer 41 40 (8 / 100) (3 / 10) 0 (1 / 4) 10
              (fun _ _ => Fin 1) false)
  = Returned (Fin (1 * exp (- (8 / 100) * (1 / 4)))).
Proof.
  apply (binomialPricer_constant_payoff 41 40 (8 / 100) (3 / 10) 0 (1 / 4) 1 10 false);
    [lra | lra | lia].
Defined.

(** X19: the payoff that pays the terminal spot itself is priced at
    [S e^(-q T)], for every step count. *)
Theorem binomialPricer_prices_the_asset (S K r v q T : R) (n : Z) (verbose : bool) :
  0 < v -> 0 < T -> (1 <= n)%Z ->
  price_of (binomialPricer S K r v q T n (fun spotT _ => spotT) verbose)
  = Returned (Fin (S * exp (- q * T))).
Proof.
  intros Hv HT Hn.
  rewrite (binomialPricer_real_payoff _ _ _ _ _ _ _ _ (fun s => s))
    by (reflexivity || assumption || lra).
  rewrite lattice_forward by (lra || lia). reflexivity.
Qed.

Lemma binomialPricer_prices_the_asset_witness :
  price_of (binomialPricer 41 40 (8 / 100) (3 / 10) 0 (1 / 4) 10
              (fun spotT _ => spotT) false)
  = Returned (Fin (41 * exp (- 0 * (1 / 4)))).
Proof.
  apply (binomialPricer_prices_the_asset 41 40 (8 / 100) (3 / 10) 0 (1 / 4) 10 false);
    [lra | lra | lia].
Defined.

Lemma lattice_option_bounds (S K r v q T : R) (N : nat) :
  0 < S -> 0 < K -> 0 < v -> 0 < T -> (1 <= N)%nat ->
  let c := spec_lattice_value S r v q T N (fun s => Rmax (s - K) 0) in
  let p := spec_lattice_value S r v q T N (fun s => Rmax (K - s) 0) in
  0 <= c <= S * exp (- q * T)
  /\ S * exp (- q * T) - K * exp (- r * T) <= c
  /\ 0 <= p <= K * exp (- r * T)
  /\ K * exp (- r * T) - S * exp (- q * T) <= p.
Proof.
  intros HS HK Hv HT HN. cbv zeta.
  assert (Hv' : v <> 0) by lra.
  assert (Hh : 0 < T / INR N).
  { apply Rdiv_lt_0_compat; [exact HT | apply lt_0_INR; lia]. }
  assert (Hspot : forall i,
             0 < spec_terminal_spot S (spec_u r v q (T / INR N))
                   (spec_d r v q (T / INR N)) N i).
  { intros i. apply spec_terminal_spot_pos; [exact HS | apply exp_pos | apply exp_pos]. }
  pose proof (lattice_forward S r v q T N Hv' HT HN) as Hfwd.
  pose proof (lattice_constant S r v q T K N) as Hk.
  pose proof (lattice_constant S r v q T 0 N) as H0.
  rewrite Rmult_0_l in H0.
  pose proof (lattice_value_linear S r v q T 1 (- 1) N (fun s => s) (fun _ => K)) as Hl1.
  pose proof (lattice_value_linear S r v q T (- 1) 1 N (fun s => s) (fun _ => K)) as Hl2.
  rewrite Hfwd, Hk in Hl1, Hl2.
  assert (Hmono : forall f g,
             (forall i, f (spec_terminal_spot S (spec_u r v q (T / INR N))
                             (spec_d r v q (T / INR N)) N i)
                        <= g (spec_terminal_spot S (spec_u r v q (T / INR N))
                                (spec_d r v q (T / INR N)) N i)) ->
             spec_lattice_value S r v q T N f <= spec_lattice_value S r v q T N g).
  { intros f g Hfg. apply lattice_value_monotone; try assumption. intros; apply Hfg. }
  pose proof (Hmono (fun _ => 0) (fun s => Rmax (s - K) 0)
                (fun i => Rmax_r _ _)) as Hc0.
  pose proof (Hmono (fun _ => 0) (fun s => Rmax (K - s) 0)
                (fun i => Rmax_r _ _)) as Hp0.
  pose proof (Hmono (fun s => 1 * s + - 1 * K) (fun s => Rmax (s - K) 0)) as Hc1.
  pose proof (Hmono (fun s => - 1 * s + 1 * K) (fun s => Rmax (K - s) 0)) as Hp1.
  pose proof (Hmono (fun s => Rmax (s - K) 0) (fun s => s)) as Hc2.
  pose proof (Hmono (fun s => Rmax (K - s) 0) (fun _ => K)) as Hp2.
  assert (Hmax1 : forall x, 1 * x + - 1 * K <= Rmax (x - K) 0).
  { intros x. pose proof (Rmax_l (x - K) 0). lra. }
  assert (Hmax2 : forall x, - 1 * x + 1 * K <= Rmax (K - x) 0).
  { intros x. pose proof (Rmax_l (K - x) 0). lra. }
  specialize (Hc1 (fun i => Hmax1 _)). specialize (Hp1 (fun i => Hmax2 _)).
  assert (Hc2' : spec_lattice_value S r v q T N (fun s => Rmax (s - K) 0)
                 <= S * exp (- q * T)).
  { rewrite <- Hfwd. apply Hc2. intros i. specialize (Hspot i).
    apply Rmax_lub; lra. }
  assert (Hp2' : spec_lattice_value S r v q T N (fun s => Rmax (K - s) 0)
                 <= K * exp (- r * T)).
  { rewrite <- Hk. apply Hp2. intros i. specialize (Hspot i).
    apply Rmax_lub; lra. }
  repeat split; lra.
Qed.

(** X20: for valid parameters the lattice call price lies between
    [max(0, S e^(-q T) - K e^(-r T))] and [S e^(-q T)], and the lattice put
    price between [max(0, K e^(-r T) - S e^(-q T))] and [K e^(-r T)]. *)
Theorem binomialPricer_option_bounds (S K r v q T : R) (n : Z) (verbose : bool) :
  valid_params S K v T q -> (1 <= n)%Z ->
  exists c p : R,
    price_of (binomialPricer S K r v q T n callPayoff verbose) = Returned (Fin c)
    /\ price_of (binomialPricer S K r v q T n putPayoff verbose) = Returned (Fin p)
    /\ 0 <= c <= S * exp (- q * T)
    /\ S * exp (- q * T) - K * exp (- r * T) <= c
    /\ 0 <= p <= K * exp (- r * T)
    /\ K * exp (- r * T) - S * exp (- q * T) <= p.
Proof.
  intros [HS HK Hv HT _] Hn.
  exists (spec_lattice_value S r v q T (Z.to_nat n) (fun s => Rmax (s - K) 0)),
         (spec_lattice_value S r v q T (Z.to_nat n) (fun s => Rmax (K - s) 0)).
  split; [apply binomialPricer_real_payoff; try assumption; try lra;
          intros; apply callPayoff_finite |].
  split; [apply binomialPricer_real_payoff; try assumption; try lra;
          intros; apply putPayoff_finite |].
  apply lattice_option_bounds; try assumption. lia.
Qed.

Lemma binomialPricer_option_bounds_witness :
  exists c p : R,
    price_of (binomialPricer 41 40 (8 / 100) (3 / 10) 0 (1 / 4) 10 callPayoff false)
    = Returned (Fin c)
    /\ price_of (binomialPricer 41 40 (8 / 100) (3 / 10) 0 (1 / 4) 10 putPayoff false)
       = Returned (Fin p)
    /\ 0 <= c <= 41 * exp (- 0 * (1 / 4))
    /\ 41 * exp (- 0 * (1 / 4)) - 40 * exp (- (8 / 100) * (1 / 4)) <= c
    /\ 0 <= p <= 40 * exp (- (8 / 100) * (1 / 4))
    /\ 40 * exp (- (8 / 100) * (1 / 4)) - 41 * exp (- 0 * (1 / 4)) <= p.
Proof.
  apply (binomialPricer_option_bounds 41 40 (8 / 100) (3 / 10) 0 (1 / 4) 10 false).
  - constructor; lra.
  - lia.
Defined.

(** X21: for a step count other than [0] and any other arguments, the verbose
    call prints [n + 1] lines (none when [n] is negative), the payoff column
    of each line is the payoff function at the line's spot, and the price
    returned under either flag is the sum of payoff times probability over
    the printed lines, times [e^(-r T)]. *)
Theorem binomialPricer_printed_lines (S K r v q T : R) (n : Z)
    (payoff : npfloat -> R -> npfloat) :
  n <> 0%Z ->
  let lines := stdout_of (binomialPricer S K r v q T n payoff true) in
  length lines = Z.to_nat (n + 1)
  /\ Forall (fun l => line_po l = payoff (line_spotT l) K) lines
  /\ forall verbose,
       price_of (binomialPricer S K r v q T n payoff verbose)
       = Returned (np_sum (map (fun l => line_po l * line_prob l)%np lines)
                   * np_exp (Fin (- r * T)))%np.
Proof.
  intros Hn. cbv zeta. rewrite (binomialPricer_fold S K r v q T n payoff true Hn).
  cbn [stdout_of snd]. split; [| split].
  - rewrite length_map, length_seq. reflexivity.
  - apply Forall_map, Forall_forall. intros i _. reflexivity.
  - intros verbose. rewrite (binomialPricer_fold S K r v q T n payoff verbose Hn).
    unfold price_of. cbn [bind fst]. rewrite map_map. reflexivity.
Qed.

Lemma binomialPricer_printed_lines_witness :
  length (stdout_of (binomialPricer 41 40 (8 / 100) (3 / 10) 0 (1 / 4) 10
                       callPayoff true)) = 11%nat.
Proof.
  apply (binomialPricer_printed_lines 41 40 (8 / 100) (3 / 10) 0 (1 / 4) 10 callPayoff).
  lia.
Defined.

(** X22: for valid parameters the lines the verbose call prints list the
    terminal spots in strictly increasing order, all positive, and the
    printed probabilities are positive and sum to [1]. *)
Theorem binomialPricer_printed_distribution (S K r v q T : R) (n : Z)
    (payoff : npfloat -> R -> npfloat) :
  valid_params S K v T q -> (1 <= n)%Z ->
  exists (spot prob : nat -> R),
    stdout_of (binomialPricer S K r v q T n payoff true)
    = map (fun i => Line (Fin (spot i)) (payoff (Fin (spot i)) K) (Fin (prob i)))
          (seq 0 (Z.to_nat n + 1))
    /\ (forall i, (i < Z.to_nat n)%nat -> 0 < spot i < spot (i + 1)%nat)
    /\ (forall i, 0 < prob i)
    /\ sum_f_R0 prob (Z.to_nat n) = 1.
Proof.
  intros [HS HK Hv HT _] Hn.
  assert (HN : (1 <= Z.to_nat n)%nat) by lia.
  pose proof (binomialPricer_lattice S K r v q T (Z.to_nat n) payoff true Hv HT HN)
    as Hb.
  rewrite Z2Nat.id in Hb by lia. rewrite Hb. cbn [stdout_of snd].
  set (N := Z.to_nat n) in *.
  assert (Hh : 0 < T / INR N).
  { apply Rdiv_lt_0_compat; [exact HT | apply lt_0_INR; lia]. }
  destruct (no_arbitrage_moves r v q (T / INR N) Hv Hh) as [Hd Hu].
  pose proof (exp_pos ((r - q) * (T / INR N) - v * sqrt (T / INR N))) as Hdpos.
  fold (spec_d r v q (T / INR N)) in Hdpos.
  exists (spec_terminal_spot S (spec_u r v q (T / INR N)) (spec_d r v q (T / INR N)) N),
         (spec_node_probability (spec_pstar r v q (T / INR N)) N).
  split; [reflexivity |]. split; [| split].
  - intros i Hi. split.
    + apply spec_terminal_spot_pos; lra.
    + apply spec_terminal_spot_step; try assumption. lra.
  - intros i. apply spec_node_probability_pos, spec_pstar_range; assumption.
  - apply node_probability_total.
Qed.

Lemma binomialPricer_printed_distribution_witness :
  exists (spot prob : nat -> R),
    stdout_of (binomialPricer 41 40 (8 / 100) (3 / 10) 0 (1 / 4) 10 callPayoff true)
    = map (fun i => Line (Fin (spot i)) (callPayoff (Fin (spot i)) 40) (Fin (prob i)))
          (seq 0 (Z.to_nat 10 + 1))
    /\ (forall i, (i < Z.to_nat 10)%nat -> 0 < spot i < spot (i + 1)%nat)
    /\ (forall i, 0 < prob i)
    /\ sum_f_R0 prob (Z.to_nat 10) = 1.
Proof.
  apply (binomialPricer_printed_distribution 41 40 (8 / 100) (3 / 10) 0 (1 / 4) 10
           callPayoff).
  - constructor; lra.
  - lia.
Defined.

(** *** The payoffs *)

(** X10: at a finite spot both payoffs are non-negative, at most one of them
    is positive, and [callPayoff - putPayoff = spot - strike]. *)
Theorem payoff_parity (s K : R) :
  exists c p : R,
    callPayoff (Fin s) K = Fin c /\ putPayoff (Fin s) K = Fin p
    /\ c - p = s - K /\ 0 <= c /\ 0 <= p /\ c * p = 0.
Proof.
  exists (Rmax (s - K) 0), (Rmax (K - s) 0).
  split; [apply callPayoff_finite |]. split; [apply putPayoff_finite |].
  destruct (Rle_dec K s).
  - rewrite (Rmax_left (s - K) 0), (Rmax_right (K - s) 0) by lra.
    repeat split; lra.
  - rewrite (Rmax_right (s - K) 0), (Rmax_left (K - s) 0) by lra.
    repeat split; lra.
Qed.

(** X11: the payoffs at the special values: NaN is returned for a NaN spot
    only; otherwise the result is non-negative; at [+inf] the call payoff is
    [+inf] and the put payoff [0], at [-inf] the other way round. *)
Theorem payoff_special_values (s : npfloat) (K : R) :
  (callPayoff s K = NaN <-> s = NaN)
  /\ (putPayoff s K = NaN <-> s = NaN)
  /\ (s <> NaN -> np_nonneg (callPayoff s K) /\ np_nonneg (putPayoff s K))
  /\ callPayoff PInf K = PInf /\ putPayoff PInf K = Fin 0
  /\ callPayoff NInf K = Fin 0 /\ putPayoff NInf K = PInf.
Proof.
  destruct s; cbn; repeat split; try congruence; try discriminate;
    try tauto; try apply Rmax_r; apply Rle_refl.
Qed.

(** *** The convergence cell *)




(** X24: at the first step count [0] of the list the cell ends with
    [ZeroDivisionError], having printed one price for each count before it
    and none for the counts after it. *)
Theorem convergence_cell_stops_at_zero (spot strike rate vol div expiry : R)
    (pre post : list Z) :
  Forall (fun n => n <> 0%Z) pre ->
  exists prices : list npfloat,
    convergence_cell spot strike rate vol div expiry (pre ++ 0%Z :: post)
    = (prices, Raised ZeroDivisionError)
    /\ length prices = length pre.
Proof.
  intros Hpre. unfold convergence_cell.
  assert (H : forall out, exists prices,
             convergence_loop spot strike rate vol div expiry (pre ++ 0%Z :: post) out
             = (out ++ prices, Raised ZeroDivisionError)
             /\ length prices = length pre).
  { induction Hpre as [| n pre Hn _ IH]; intros out.
    - exists []. cbn. rewrite binomialPricer_zero_steps, app_nil_r. auto.
    - cbn [app convergence_loop].
      rewrite (binomialPricer_fold spot strike rate vol div expiry n callPayoff false Hn).
      cbv zeta.
      destruct (IH (out ++ [(fold_left np_add
          (map (fun i => callPayoff
                  (node_spotT spot n (Lattice.u rate vol div (expiry / IZR n))
                     (Lattice.d rate vol div (expiry / IZR n)) i) strike
                * binom_pmf (Z.of_nat i) n
                    (Lattice.pstar rate vol div (expiry / IZR n)))%np
               (seq 0 (Z.to_nat (n + 1)))) (Fin 0)
          * np_exp (Fin (- rate * expiry)))%np])) as (prices & Heq & Hlen).
      eexists (_ :: prices). rewrite Heq, <- app_assoc. cbn. auto. }
  destruct (H []) as (prices & Heq & Hlen). exists prices. auto.
Qed.

Lemma convergence_cell_stops_at_zero_witness :
  exists prices : list npfloat,
    convergence_cell 41 40 (8 / 100) (3 / 10) 0 (1 / 4) ([10; 25] ++ 0 :: [50])%Z
    = (prices, Raised ZeroDivisionError)
    /\ length prices = length [10; 25]%Z.
Proof.
  apply (convergence_cell_stops_at_zero 41 40 (8 / 100) (3 / 10) 0 (1 / 4)
           [10; 25]%Z [50]%Z).
  repeat constructor; lia.
Defined.
